(** * exp_utils: the Redis-backed queue and shared dictionary of [utils.py]

    The development embeds [singleton], [RedisQueue] and [RedisDict] of
    [src/utils.py].  The two collaborators those classes call, the [pickle]
    codec and the [redis] client, are not part of the repository; they are
    modelled after the contracts of the specification (sections 4.1 and 4.2)
    and are marked as such below. *)

From Stdlib Require Import ZArith NArith Lia.
From Stdlib Require Import Strings.Byte Strings.String.
From stdpp Require Import base option list strings gmap.

Open Scope Z_scope.

(** ** Python outcomes *)

(** Exceptions.  [TypeError] and [AttributeError] are the Python built-ins the
    source can raise.  [EncodeError], [DecodeError] and
    [StoreUnavailableError] are raised by the modelled collaborators and carry
    the names of the specification's taxonomy; [ResponseError] and [DataError]
    are the store client's replies to a key of the wrong kind (or a negative
    timeout) and to [None] used as a key.  [QueueEmptyError],
    [QueueTimeoutError], [NotConfiguredError] and [FieldNotFoundError]
    complete the taxonomy of the specification: nothing below raises them.
    [DanglingReference] is the model's reply to an object reference that was
    never allocated. *)
Inductive exn : Set :=
  | TypeError
  | AttributeError
  | EncodeError
  | DecodeError
  | StoreUnavailableError
  | ResponseError
  | DataError
  | QueueEmptyError
  | QueueTimeoutError
  | NotConfiguredError
  | FieldNotFoundError
  | DanglingReference.

(** A call returns, raises, or never comes back (a pop that blocks without a
    time limit on a list nobody fills). *)
Inductive outcome (A : Type) : Type :=
  | Ret (a : A)
  | Raise (e : exn)
  | Blocks.
Arguments Ret {A} a.
Arguments Raise {A} e.
Arguments Blocks {A}.

Definition bytes : Type := list byte.

(** ** Serialization codec *)

Module pickle.

(** Modelled from the spec: the values of section 4.1, which the codec must
    take without a fixed schema: the primitive scalars, nested sequences and
    mappings (in insertion order), and a live resource such as an open file,
    which has no serialized form.  Floating point numbers are left out. *)
#[local] Unset Elimination Schemes.
Inductive value : Type :=
  | VNone
  | VBool (b : bool)
  | VInt (z : Z)
  | VStr (s : string)
  | VBytes (bs : bytes)
  | VList (vs : list value)
  | VDict (kvs : list (value * value))
  | VHandle (fd : Z).
#[local] Set Elimination Schemes.

Definition byte_of_N (n : N) : byte := default x00 (Byte.of_N n).

(** Lengths, counts and integers are written as base-128 digits, least
    significant first, the high bit of a byte telling that more follow. *)
Fixpoint varint_digits (fuel : nat) (n : N) : bytes :=
  match fuel with
  | O => []
  | S fuel' =>
      if (n <? 128)%N then [byte_of_N n]
      else byte_of_N (128 + n mod 128) :: varint_digits fuel' (n / 128)
  end.

Definition varint (n : N) : bytes := varint_digits (S (N.size_nat n)) n.

Fixpoint unvarint (bs : bytes) : option (N * bytes) :=
  match bs with
  | [] => None
  | b :: rest =>
      let d := Byte.to_N b in
      if (d <? 128)%N then Some (d, rest)
      else '(hi, rest') ← unvarint rest; Some ((d - 128) + 128 * hi, rest')%N
  end.

(** Signed integers of any size are folded onto the naturals. *)
Definition zigzag (z : Z) : N :=
  if z <? 0 then Z.to_N (2 * (- z) - 1) else Z.to_N (2 * z).

Definition unzigzag (n : N) : Z :=
  if N.even n then Z.of_N (n / 2) else - Z.of_N ((n + 1) / 2).

Definition tag_none : byte := "N".
Definition tag_true : byte := "T".
Definition tag_false : byte := "F".
Definition tag_int : byte := "I".
Definition tag_str : byte := "S".
Definition tag_bytes : byte := "B".
Definition tag_list : byte := "L".
Definition tag_dict : byte := "D".

Definition codec_version : byte := x01.

(** A value can be written when no live resource occurs in it. *)
Fixpoint serializable (v : value) : bool :=
  match v with
  | VList vs => forallb serializable vs
  | VDict kvs => forallb (λ kv, serializable kv.1 && serializable kv.2) kvs
  | VHandle _ => false
  | _ => true
  end.

Definition sized (payload : bytes) : bytes :=
  varint (N.of_nat (length payload)) ++ payload.

(** Modelled from the spec: the wire format, which section 4.1 leaves to the
    implementer and sketches as length-prefixed and self-describing: a tag,
    then the length-prefixed content. *)
Fixpoint enc (v : value) : bytes :=
  match v with
  | VNone => [tag_none]
  | VBool true => [tag_true]
  | VBool false => [tag_false]
  | VInt z => tag_int :: varint (zigzag z)
  | VStr s => tag_str :: sized (list_byte_of_string s)
  | VBytes bs => tag_bytes :: sized bs
  | VList vs =>
      tag_list :: varint (N.of_nat (length vs)) ++ concat (map enc vs)
  | VDict kvs =>
      tag_dict :: varint (N.of_nat (length kvs))
        ++ concat (map (λ kv, enc kv.1 ++ enc kv.2) kvs)
  | VHandle _ => []
  end.

Definition unsized (bs : bytes) : option (bytes * bytes) :=
  '(n, rest) ← unvarint bs;
  if (n <=? N.of_nat (length rest))%N
  then Some (take (N.to_nat n) rest, drop (N.to_nat n) rest)
  else None.

Fixpoint dec_seq (d : bytes → option (value * bytes)) (n : nat) (bs : bytes)
    : option (list value * bytes) :=
  match n with
  | O => Some ([], bs)
  | S n' =>
      '(v, bs1) ← d bs;
      '(vs, bs2) ← dec_seq d n' bs1;
      Some (v :: vs, bs2)
  end.

Fixpoint dec_pairs (d : bytes → option (value * bytes)) (n : nat) (bs : bytes)
    : option (list (value * value) * bytes) :=
  match n with
  | O => Some ([], bs)
  | S n' =>
      '(k, bs1) ← d bs;
      '(v, bs2) ← d bs1;
      '(kvs, bs3) ← dec_pairs d n' bs2;
      Some ((k, v) :: kvs, bs3)
  end.

(** Modelled from the spec: the reader of that wire format.  It takes one
    value off the front of [bs]; a declared count larger than the bytes that
    remain is rejected before anything is read. *)
Fixpoint dec (fuel : nat) (bs : bytes) : option (value * bytes) :=
  match fuel with
  | O => None
  | S fuel' =>
      match bs with
      | [] => None
      | t :: rest =>
          if Byte.eqb t tag_none then Some (VNone, rest)
          else if Byte.eqb t tag_true then Some (VBool true, rest)
          else if Byte.eqb t tag_false then Some (VBool false, rest)
          else if Byte.eqb t tag_int then
            '(n, rest1) ← unvarint rest; Some (VInt (unzigzag n), rest1)
          else if Byte.eqb t tag_str then
            '(p, rest1) ← unsized rest;
            Some (VStr (string_of_list_byte p), rest1)
          else if Byte.eqb t tag_bytes then
            '(p, rest1) ← unsized rest; Some (VBytes p, rest1)
          else if Byte.eqb t tag_list then
            '(n, rest1) ← unvarint rest;
            if (n <=? N.of_nat (length rest1))%N then
              '(vs, rest2) ← dec_seq (dec fuel') (N.to_nat n) rest1;
              Some (VList vs, rest2)
            else None
          else if Byte.eqb t tag_dict then
            '(n, rest1) ← unvarint rest;
            if (n <=? N.of_nat (length rest1))%N then
              '(kvs, rest2) ← dec_pairs (dec fuel') (N.to_nat n) rest1;
              Some (VDict kvs, rest2)
            else None
          else None
      end
  end.

(** Modelled from the spec: the Serialization Codec of section 4.1, which
    the source takes from Python's [pickle] module ([pickle.dumps]).  The
    whole payload is built in memory; a value holding a resource that
    cannot be serialized fails with [EncodeError]. *)
Definition dumps (v : value) : outcome bytes :=
  if serializable v then Ret (codec_version :: enc v) else Raise EncodeError.

Definition decode (data : bytes) : outcome value :=
  match data with
  | ver :: body =>
      if Byte.eqb ver codec_version then
        match dec (S (length body)) body with
        | Some (v, []) => Ret v
        | _ => Raise DecodeError
        end
      else Raise DecodeError
  | [] => Raise DecodeError
  end.

(** Modelled from the spec: the decoding half of the codec of section 4.1
    ([pickle.loads] in the source).  Malformed bytes, bytes left over and a
    foreign version fail with [DecodeError].  The argument is what the
    caller holds, which in Python may be [None] instead of a bytes object:
    that is a [TypeError]. *)
Definition loads (data : option bytes) : outcome value :=
  match data with
  | None => Raise TypeError
  | Some bs => decode bs
  end.

End pickle.

Section value_induction.

Import pickle.

Variable P : value → Prop.
Hypothesis HNone : P VNone.
Hypothesis HBool : ∀ b, P (VBool b).
Hypothesis HInt : ∀ z, P (VInt z).
Hypothesis HStr : ∀ s, P (VStr s).
Hypothesis HBytes : ∀ bs, P (VBytes bs).
Hypothesis HList : ∀ vs, Forall P vs → P (VList vs).
Hypothesis HDict : ∀ kvs, Forall (λ kv, P kv.1 ∧ P kv.2) kvs → P (VDict kvs).
Hypothesis HHandle : ∀ fd, P (VHandle fd).

(** Induction over values, with the hypothesis for every element of a
    sequence and every key and value of a mapping. *)
Fixpoint value_ind (v : value) : P v :=
  match v with
  | VNone => HNone
  | VBool b => HBool b
  | VInt z => HInt z
  | VStr s => HStr s
  | VBytes bs => HBytes bs
  | VList vs =>
      HList vs
        ((fix all (l : list value) : Forall P l :=
            match l with
            | [] => Forall_nil_2 P
            | x :: l' => Forall_cons_2 P x l' (value_ind x) (all l')
            end) vs)
  | VDict kvs =>
      HDict kvs
        ((fix all (l : list (value * value))
            : Forall (λ kv, P kv.1 ∧ P kv.2) l :=
            match l with
            | [] => Forall_nil_2 _
            | kv :: l' =>
                Forall_cons_2 _ kv l'
                  (conj (value_ind kv.1) (value_ind kv.2)) (all l')
            end) kvs)
  | VHandle fd => HHandle fd
  end.

End value_induction.

(** ** Store client *)

Module redis.

(** Modelled from the spec: the configuration [{host, port, password}] of
    section 4.2, as [redis.Redis(host, port, password)] keeps it: the address
    and credential of one store.  Nothing is sent before the first
    command. *)
Record Redis : Type := { host : string; port : Z; password : option string }.

(** Keyword arguments of the constructor; what is left out takes the
    client's default. *)
Record kwargs : Type :=
  { kw_host : option string; kw_port : option Z; kw_password : option string }.

Definition new (kw : kwargs) : Redis :=
  {| host := default "localhost"%string (kw_host kw);
     port := default 6379 (kw_port kw);
     password := kw_password kw |}.

(** What one key of the store holds. *)
Inductive entry : Type :=
  | RList (l : list bytes)
  | RHash (h : gmap string bytes).

Record server : Type :=
  { requirepass : option string; keyspace : gmap string entry }.

(** The stores that can be reached, by host and port. *)
Abbreviation world := (gmap (string * Z) server).

(** An empty password is no credential. *)
Definition credential (c : Redis) : option string :=
  match password c with
  | Some p => if decide (p = ""%string) then None else Some p
  | None => None
  end.

(** Modelled from the spec: the Store Client Adapter of section 4.2 (the
    [redis] client package in the source).  A refused connection or a
    rejected credential surfaces as [StoreUnavailableError]. *)
Definition connect (c : Redis) (w : world) : outcome server :=
  match w !! (host c, port c) with
  | Some srv =>
      if decide (credential c = requirepass srv) then Ret srv
      else Raise StoreUnavailableError
  | None => Raise StoreUnavailableError
  end.

(** One command: connect, run it on the key space, keep the result. *)
Definition command {A : Type} (c : Redis)
    (f : gmap string entry → outcome A * gmap string entry) (w : world)
    : outcome A * world :=
  match connect c w with
  | Ret srv =>
      let '(res, ks) := f (keyspace srv) in
      (res, <[(host c, port c) :=
                {| requirepass := requirepass srv; keyspace := ks |}]> w)
  | Raise e => (Raise e, w)
  | Blocks => (Blocks, w)
  end.

(** The list at a key; a key that is not there is the empty list, a key
    that holds a hash has no list. *)
Definition list_at (key : string) (ks : gmap string entry)
    : option (list bytes) :=
  match ks !! key with
  | None => Some []
  | Some (RList l) => Some l
  | Some (RHash _) => None
  end.

(** A list that becomes empty takes its key with it. *)
Definition put_list (key : string) (l : list bytes) (ks : gmap string entry)
    : gmap string entry :=
  match l with
  | [] => delete key ks
  | _ => <[key := RList l]> ks
  end.

Definition hash_at (key : string) (ks : gmap string entry)
    : option (gmap string bytes) :=
  match ks !! key with
  | None => Some ∅
  | Some (RHash h) => Some h
  | Some (RList _) => None
  end.

(** Modelled from the spec: [pushLeft(key, payload)] of section 4.2, which
    inserts the payload at the head of the list and returns the new
    length. *)
Definition lpush (c : Redis) (key : string) (v : bytes) : world → outcome Z * world :=
  command c (λ ks,
    match list_at key ks with
    | Some l => (Ret (Z.of_nat (length (v :: l))), <[key := RList (v :: l)]> ks)
    | None => (Raise ResponseError, ks)
    end).

(** Modelled from the spec: [popRight(key)] of section 4.2, which removes
    and returns the tail element, or returns nothing at once. *)
Definition rpop (c : Redis) (key : string) : world → outcome (option bytes) * world :=
  command c (λ ks,
    match list_at key ks with
    | Some l =>
        match last l with
        | Some x => (Ret (Some x), put_list key (removelast l) ks)
        | None => (Ret None, ks)
        end
    | None => (Raise ResponseError, ks)
    end).

(** Modelled from the spec: [popRightBlocking(key, timeout)] of section
    4.2.  With an element in the list it is [popRight], the reply naming
    the key as well.  On a list that stays empty it returns nothing when
    the time limit runs out, and does not return when there is no limit;
    the client sends an unset limit as 0, which the store reads as no
    limit, and the store refuses a negative one. *)
Definition brpop (c : Redis) (key : string) (timeout : option Z)
    : world → outcome (option (string * bytes)) * world :=
  command c (λ ks,
    let t := default 0 timeout in
    if t <? 0 then (Raise ResponseError, ks)
    else
      match list_at key ks with
      | Some l =>
          match last l with
          | Some x => (Ret (Some (key, x)), put_list key (removelast l) ks)
          | None => if t =? 0 then (Blocks, ks) else (Ret None, ks)
          end
      | None => (Raise ResponseError, ks)
      end).

(** Modelled from the spec: [length(key)] of section 4.2. *)
Definition llen (c : Redis) (key : string) : world → outcome Z * world :=
  command c (λ ks,
    match list_at key ks with
    | Some l => (Ret (Z.of_nat (length l)), ks)
    | None => (Raise ResponseError, ks)
    end).

(** Modelled from the spec: [peekTail(key)] of section 4.2, in the general
    form the client offers: the element at an index, counted from the tail
    when the index is negative. *)
Definition lindex (c : Redis) (key : string) (index : Z)
    : world → outcome (option bytes) * world :=
  command c (λ ks,
    match list_at key ks with
    | Some l =>
        let i := if index <? 0 then Z.of_nat (length l) + index else index in
        (Ret (if i <? 0 then None else l !! Z.to_nat i), ks)
    | None => (Raise ResponseError, ks)
    end).

(** Modelled from the spec: [hashSet(key, field, payload)] of section 4.2;
    the reply counts the fields that were new. *)
Definition hset (c : Redis) (key field : string) (v : bytes) : world → outcome Z * world :=
  command c (λ ks,
    match hash_at key ks with
    | Some h =>
        (Ret (if h !! field is Some _ then 0 else 1),
         <[key := RHash (<[field := v]> h)]> ks)
    | None => (Raise ResponseError, ks)
    end).

(** Modelled from the spec: [hashGet(key, field)] of section 4.2. *)
Definition hget (c : Redis) (key field : string) : world → outcome (option bytes) * world :=
  command c (λ ks,
    match hash_at key ks with
    | Some h => (Ret (h !! field), ks)
    | None => (Raise ResponseError, ks)
    end).

(** Modelled from the spec: [hashExists(key, field)] of section 4.2. *)
Definition hexists (c : Redis) (key field : string) : world → outcome bool * world :=
  command c (λ ks,
    match hash_at key ks with
    | Some h => (Ret (if h !! field is Some _ then true else false), ks)
    | None => (Raise ResponseError, ks)
    end).

(** Modelled from the spec: [hashGetAll(key)] of section 4.2. *)
Definition hgetall (c : Redis) (key : string)
    : world → outcome (gmap string bytes) * world :=
  command c (λ ks,
    match hash_at key ks with
    | Some h => (Ret h, ks)
    | None => (Raise ResponseError, ks)
    end).

(** A command whose key argument is a Python value that may be [None]: the
    client reaches the store and then refuses to send [None]. *)
Definition keyed {A : Type} (c : Redis) (key : option string)
    (cmd : string → world → outcome A * world) (w : world) : outcome A * world :=
  match connect c w with
  | Ret _ =>
      match key with
      | Some k => cmd k w
      | None => (Raise DataError, w)
      end
  | Raise e => (Raise e, w)
  | Blocks => (Blocks, w)
  end.

End redis.

(** ** The interpreter state of one process *)

(** The attributes of the [RedisDict] instance.  [exp_key] is [None] until
    [set_db]; the attribute [r] does not exist until [set_db] assigns it. *)
Record RedisDict_attrs : Type :=
  { exp_key : option string; r : option redis.Redis }.

(** The stores the process can reach, its objects by reference, what it has
    printed, and the [RedisDict] attribute of module [utils] once the module
    has been imported. *)
Record state : Type :=
  { store : redis.world;
    heap : gmap nat RedisDict_attrs;
    stdout : list string;
    utils_RedisDict : option nat }.

Definition M (A : Type) : Type := state → outcome A * state.

Definition ret {A : Type} (a : A) : M A := λ s, (Ret a, s).
Definition raise {A : Type} (e : exn) : M A := λ s, (Raise e, s).
Definition bind {A B : Type} (m : M A) (k : A → M B) : M B :=
  λ s, match m s with
       | (Ret a, s') => k a s'
       | (Raise e, s') => (Raise e, s')
       | (Blocks, s') => (Blocks, s')
       end.

Notation "'let*' x := m 'in' k" := (bind m (λ x, k))
  (at level 10, x name, m at level 100, k at level 200).

(** A pure call that may raise. *)
Definition lift {A : Type} (o : outcome A) : M A := λ s, (o, s).

Definition with_store (w : redis.world) (s : state) : state :=
  {| store := w; heap := heap s; stdout := stdout s;
     utils_RedisDict := utils_RedisDict s |}.

(** A store command issued by the process. *)
Definition call {A : Type} (cmd : redis.world → outcome A * redis.world) : M A :=
  λ s, let '(res, w) := cmd (store s) in (res, with_store w s).

(** [x[1]] on the reply of a blocking pop: [None] cannot be subscripted. *)
Definition subscript1 {A B : Type} (x : option (A * B)) : M B :=
  match x with
  | Some p => ret p.2
  | None => raise TypeError
  end.

Definition print (line : string) : M unit :=
  λ s, (Ret tt, {| store := store s; heap := heap s;
                  stdout := stdout s ++ [line];
                  utils_RedisDict := utils_RedisDict s |}).

(** [str(x)] of a key that may be [None]. *)
Definition str (x : option string) : string := default "None"%string x.

Definition alloc (o : RedisDict_attrs) : M nat :=
  λ s, let l := fresh (dom (heap s)) in
       (Ret l, {| store := store s; heap := <[l := o]> (heap s);
                  stdout := stdout s; utils_RedisDict := utils_RedisDict s |}).

Definition deref (self : nat) : M RedisDict_attrs :=
  λ s, match heap s !! self with
       | Some o => (Ret o, s)
       | None => (Raise DanglingReference, s)
       end.

Definition assign (self : nat) (o : RedisDict_attrs) : M unit :=
  λ s, (Ret tt, {| store := store s; heap := <[self := o]> (heap s);
                  stdout := stdout s; utils_RedisDict := utils_RedisDict s |}).

(** [self.r]: an attribute that was never assigned raises. *)
Definition getattr_r (o : RedisDict_attrs) : M redis.Redis :=
  match r o with
  | Some c => ret c
  | None => raise AttributeError
  end.

(** ** [class RedisQueue] *)

Module RedisQueue.

Record t : Type := { key : string; r : redis.Redis }.

Definition __init__ (name : string) (redis_kwargs : redis.kwargs) : t :=
  {| key := name; r := redis.new redis_kwargs |}.

Definition size (self : t) : M Z :=
  call (redis.llen (r self) (key self)).

Definition qsize (self : t) : M Z := size self.

Definition is_empty (self : t) : M bool :=
  let* n := size self in ret (n =? 0).

Definition put (self : t) (element : pickle.value) : M Z :=
  let* v := lift (pickle.dumps element) in
  call (redis.lpush (r self) (key self) v).

Definition get (self : t) (is_blocking : bool) (timeout : option Z)
    : M pickle.value :=
  let* element :=
    (if is_blocking then
       let* element := call (redis.brpop (r self) (key self) timeout) in
       let* element := subscript1 element in
       ret (Some element)
     else call (redis.rpop (r self) (key self))) in
  let* unpickled_v := lift (pickle.loads element) in
  ret unpickled_v.

Definition get_without_pop (self : t) : M (option bytes) :=
  let* empty := is_empty self in
  if empty then ret None
  else call (redis.lindex (r self) (key self) (-1)).

End RedisQueue.

(** ** [def singleton] *)

(** A class: its identity, and its constructor call [cls()], which returns a
    reference to the new instance. *)
Record class : Type := { cls_name : string; cls_call : M nat }.

(** The closure [get_instance] over [cls] and the dictionary [instances],
    which it may extend. *)
Definition get_instance (cls : class) (instances : gmap string nat)
    : M (nat * gmap string nat) :=
  match instances !! cls_name cls with
  | None =>
      let* o := cls_call cls in
      ret (o, <[cls_name cls := o]> instances)
  | Some o => ret (o, instances)
  end.

(** The decorator returns [get_instance()], the instance, and not the
    closure: the name of the decorated class is bound to its one instance. *)
Definition singleton (cls : class) : M nat :=
  let instances : gmap string nat := ∅ in
  let* res := get_instance cls instances in
  ret res.1.

(** ** [class RedisDict] *)

Module RedisDict.

Definition __init__ : M nat :=
  alloc {| exp_key := None; r := None |}.

Definition cls : class :=
  {| cls_name := "RedisDict"; cls_call := __init__ |}.

Definition is_set (self : nat) : M bool :=
  let* o := deref self in
  ret (if exp_key o is Some _ then true else false).

(** [host] and [password] default to ['localhost'] and ['']. *)
Definition set_db (self : nat) (exp_key' : string)
    (host : option string) (password : option string) : M unit :=
  let* o := deref self in
  let* _u := assign self {| exp_key := Some exp_key'; r := r o |} in
  assign self
    {| exp_key := Some exp_key';
       r := Some {| redis.host := default "localhost"%string host;
                    redis.password := Some (default ""%string password);
                    redis.port := 6379 |} |}.

(** The loop of [get_dict] over the items of the reply. *)
Fixpoint get_dict_loop (items : list (string * bytes))
    (res_dict : gmap string pickle.value) : M (gmap string pickle.value) :=
  match items with
  | [] => ret res_dict
  | (key_b, value_b) :: items' =>
      let* v := lift (pickle.loads (Some value_b)) in
      get_dict_loop items' (<[key_b := v]> res_dict)
  end.

Definition get_dict (self : nat) : M (gmap string pickle.value) :=
  let* o := deref self in
  let key := exp_key o in
  let* c := getattr_r o in
  let* redis_dictionaries := call (redis.keyed c key (redis.hgetall c)) in
  let res_dict : gmap string pickle.value := ∅ in
  get_dict_loop (map_to_list redis_dictionaries) res_dict.

Definition set (self : nat) (field : string) (value : pickle.value) : M unit :=
  let* o := deref self in
  let key := exp_key o in
  let* pickled_value := lift (pickle.dumps value) in
  let* c := getattr_r o in
  let* _n := call (redis.keyed c key (λ k, redis.hset c k field pickled_value)) in
  ret tt.

(** A field that is not there is reported on standard output and answered
    with [None]. *)
Definition get (self : nat) (field : string) : M pickle.value :=
  let* o := deref self in
  let* c := getattr_r o in
  let* present := call (redis.keyed c (exp_key o) (λ k, redis.hexists c k field)) in
  if present then
    let* loaded_value := call (redis.keyed c (exp_key o) (λ k, redis.hget c k field)) in
    let* unpickled_value := lift (pickle.loads loaded_value) in
    ret unpickled_value
  else
    let* _u :=
      print (field ++ " does not exist in Redis with the experiment "
               ++ str (exp_key o)) in
    ret pickle.VNone.

End RedisDict.

(** The name [RedisDict] of module [utils].  The module body, and with it
    [singleton(RedisDict)], runs when the process first imports the module;
    every later import finds the module already loaded. *)
Definition import_RedisDict : M nat :=
  λ s, match utils_RedisDict s with
       | Some o => (Ret o, s)
       | None =>
           match singleton RedisDict.cls s with
           | (Ret o, s') =>
               (Ret o, {| store := store s'; heap := heap s';
                          stdout := stdout s'; utils_RedisDict := Some o |})
           | res => res
           end
       end.

(** ** Vocabulary of the properties *)

(** The address a client handle points at. *)
Definition endpoint (c : redis.Redis) : string * Z := (redis.host c, redis.port c).

(** The handle [h] names the list [k] of the store at [ep] and presents the
    credential [pw]. *)
Definition queue_handle (ep : string * Z) (pw : option string) (k : string)
    (h : RedisQueue.t) : Prop :=
  endpoint (RedisQueue.r h) = ep
  ∧ redis.credential (RedisQueue.r h) = pw
  ∧ RedisQueue.key h = k.

(** The store at [ep] is up, expects the credential [pw] and holds the list
    [l] at [k] (the empty list when the key is not there). *)
Definition queue_holds (s : state) (ep : string * Z) (pw : option string)
    (k : string) (l : list bytes) : Prop :=
  ∃ srv, store s !! ep = Some srv
         ∧ redis.requirepass srv = pw
         ∧ redis.list_at k (redis.keyspace srv) = Some l.

(** The payload [put] stores for a value that can be encoded. *)
Definition payload (v : pickle.value) : bytes :=
  pickle.codec_version :: pickle.enc v.

(** Producers: each value is put through a handle of its own. *)
Fixpoint put_all (pushes : list (RedisQueue.t * pickle.value)) : M (list Z) :=
  match pushes with
  | [] => ret []
  | (h, v) :: rest =>
      let* n := RedisQueue.put h v in
      let* ns := put_all rest in
      ret (n :: ns)
  end.

(** Consumers: each call names its handle and how it waits. *)
Fixpoint get_all (pops : list (RedisQueue.t * bool * option Z))
    : M (list pickle.value) :=
  match pops with
  | [] => ret []
  | (h, is_blocking, timeout) :: rest =>
      let* v := RedisQueue.get h is_blocking timeout in
      let* vs := get_all rest in
      ret (v :: vs)
  end.

(** The store the client [c] reaches accepts its credential and holds the
    hash [h] at [k] (the empty hash when the key is not there). *)
Definition hash_holds (s : state) (c : redis.Redis) (k : string)
    (h : gmap string bytes) : Prop :=
  ∃ srv, store s !! endpoint c = Some srv
         ∧ redis.credential c = redis.requirepass srv
         ∧ redis.hash_at k (redis.keyspace srv) = Some h.

(** The client [set_db] builds from its arguments. *)
Definition dict_client (host password : option string) : redis.Redis :=
  {| redis.host := default "localhost"%string host;
     redis.password := Some (default ""%string password);
     redis.port := 6379 |}.

(** The object [self] is a [RedisDict] that [set_db] has pointed at the
    namespace [key] through the client [c]. *)
Definition configured (s : state) (self : nat) (key : string) (c : redis.Redis)
    : Prop :=
  heap s !! self = Some {| exp_key := Some key; r := Some c |}.

(** The module [utils] is either not loaded yet, or its [RedisDict] refers to
    a live object. *)
Definition module_ok (s : state) : Prop :=
  match utils_RedisDict s with
  | Some o => is_Some (heap s !! o)
  | None => True
  end.

(** The line [RedisDict.get] prints for a field that is not there. *)
Definition missing_field_line (field : string) (key : option string) : string :=
  field ++ " does not exist in Redis with the experiment " ++ str key.

(** ** A process to run the calls in *)

Definition no_kwargs : redis.kwargs :=
  {| redis.kw_host := None; redis.kw_port := None; redis.kw_password := None |}.

(** One store on the local host, default port, no password, nothing in it. *)
Definition local_store : redis.world :=
  {[ ("localhost"%string, 6379) :=
       {| redis.requirepass := None; redis.keyspace := ∅ |} ]}.

(** A process that has just started. *)
Definition fresh_process : state :=
  {| store := local_store; heap := ∅; stdout := []; utils_RedisDict := None |}.

(** Two handles on the queue ["jobs"], built with different arguments. *)
Definition jobs : RedisQueue.t := RedisQueue.__init__ "jobs" no_kwargs.

Definition jobs' : RedisQueue.t :=
  RedisQueue.__init__ "jobs"
    {| redis.kw_host := Some "localhost"%string; redis.kw_port := Some 6379;
       redis.kw_password := Some ""%string |}.

Definition task (n : Z) : pickle.value :=
  pickle.VDict [(pickle.VStr "task", pickle.VInt n)].

(** The process after its first [import] of the module. *)
Definition loaded_process : state := (import_RedisDict fresh_process).2.

(** The same process after [RedisDict.set_db("exp")]: the one instance is
    object 0. *)
Definition configured_process : state :=
  (RedisDict.set_db 0 "exp" None None loaded_process).2.

(** A value that holds an open file. *)
Definition open_log : pickle.value :=
  pickle.VList [pickle.VStr "log"; pickle.VHandle 3].

(** ** Further vocabulary *)

(** No store answers the client [c]: nothing listens at its address, or what
    listens there rejects its credential. *)
Definition unreachable (s : state) (c : redis.Redis) : Prop :=
  ∀ srv, store s !! endpoint c = Some srv →
         redis.credential c ≠ redis.requirepass srv.

(** The state in which the store at [ep] holds the key space [ks]. *)
Definition with_keyspace (ep : string * Z) (ks : gmap string redis.entry)
    (s : state) : state :=
  with_store
    (alter (λ srv, {| redis.requirepass := redis.requirepass srv;
                      redis.keyspace := ks |}) ep (store s)) s.

(** ** More processes to run the calls in *)

Definition local : string * Z := ("localhost"%string, 6379).

(** The local store with the given key space. *)
Definition local_with (ks : gmap string redis.entry) : state :=
  with_keyspace local ks fresh_process.

(** The queue ["jobs"] after [put(task 1)]: one payload. *)
Definition one_job : state := local_with {[ "jobs"%string := redis.RList [payload (task 1)] ]}.

(** The queue ["jobs"] holding bytes no [put] of this codec wrote. *)
Definition foreign_job : state := local_with {[ "jobs"%string := redis.RList [[x00; x2a]] ]}.

(** A handle on another queue of the same store, and one on the queue
    ["jobs"] of a store that is not there. *)
Definition mails : RedisQueue.t := RedisQueue.__init__ "mails" no_kwargs.

Definition jobs_elsewhere : RedisQueue.t :=
  RedisQueue.__init__ "jobs"
    {| redis.kw_host := Some "10.0.0.7"%string; redis.kw_port := None;
       redis.kw_password := None |}.

(** The process of [configured_process] with the given fields under the
    namespace ["exp"]. *)
Definition exp_with (h : gmap string bytes) : state :=
  with_keyspace local {[ "exp"%string := redis.RHash h ]} configured_process.

(** The same process, pointed at a store that is not there. *)
Definition misconfigured_process : state :=
  (RedisDict.set_db 0 "exp" (Some "10.0.0.7"%string) None loaded_process).2.

(** ** Helpers of [utils.py] *)

(** What the helpers raise: the exceptions above, [KeyError] with its key,
    [argparse.ArgumentTypeError] and [TimeoutError] with their messages, and
    the [OverflowError] and [ValueError] of the [signal] module. *)
Inductive raised : Type :=
  | Core (e : exn)
  | KeyError (key : string)
  | ArgumentTypeError (msg : string)
  | TimeoutError (msg : string)
  | OverflowError
  | ValueError.

Inductive result (A : Type) : Type :=
  | Returned (a : A)
  | Raised (e : raised).
Arguments Returned {A} a.
Arguments Raised {A} e.

(** *** [def str2bool] *)

(** [str.lower()] on the letters of ASCII.  Other characters are left as
    they are: none of them lowers to a letter of the ten words [str2bool]
    knows. *)
Definition lower_ascii (c : Ascii.ascii) : Ascii.ascii :=
  let n := Ascii.N_of_ascii c in
  if (65 <=? n)%N && (n <=? 90)%N then Ascii.ascii_of_N (n + 32) else c.

Fixpoint lower (s : string) : string :=
  match s with
  | EmptyString => EmptyString
  | String c s' => String (lower_ascii c) (lower s')
  end.

Definition yes_words : list string := ["yes"; "true"; "t"; "y"; "1"]%string.
Definition no_words : list string := ["no"; "false"; "f"; "n"; "0"]%string.

(** A [bool] is returned as it is; a [str] is looked up without regard to
    case; [bytes] have a [lower] but equal no [str]; the other values have no
    [lower] at all. *)
Definition str2bool (v : pickle.value) : result bool :=
  match v with
  | pickle.VBool b => Returned b
  | pickle.VStr s =>
      if bool_decide (lower s ∈ yes_words) then Returned true
      else if bool_decide (lower s ∈ no_words) then Returned false
      else Raised (ArgumentTypeError "Boolean value expected.")
  | pickle.VBytes _ => Raised (ArgumentTypeError "Boolean value expected.")
  | _ => Raised (Core AttributeError)
  end.

(** *** [class Map] *)

Module Map.

(** A [Map] is a [dict] with an instance dictionary beside it: the items the
    [dict] part holds, and [__dict__], where attribute lookup finds them.
    Keys are strings, as attribute names and keyword arguments are. *)
Record t : Type :=
  { items : gmap string pickle.value; __dict__ : gmap string pickle.value }.

(** A positional argument: a [dict], or another iterable of key and value
    pairs such as a list of tuples.  Either lists its pairs in order. *)
Inductive arg : Type :=
  | Dict (d : list (string * pickle.value))
  | Pairs (l : list (string * pickle.value)).

Definition pairs_of (a : arg) : list (string * pickle.value) :=
  match a with
  | Dict d => d
  | Pairs l => l
  end.

(** [dict.update] of the built-in type: later pairs replace earlier ones. *)
Definition fill (base : gmap string pickle.value)
    (kvs : list (string * pickle.value)) : gmap string pickle.value :=
  foldl (λ acc kv, <[kv.1 := kv.2]> acc) base kvs.

(** [dict.__init__] of the built-in type, given the arguments of [__init__]:
    at most one positional argument, then the keyword arguments. *)
Definition dict_init (args : list arg) (kwargs : list (string * pickle.value))
    : result (gmap string pickle.value) :=
  match args with
  | [] => Returned (fill ∅ kwargs)
  | [a] => Returned (fill (fill ∅ (pairs_of a)) kwargs)
  | _ => Raised (Core TypeError)
  end.

Definition __setitem__ (self : t) (key : string) (value : pickle.value) : t :=
  {| items := <[key := value]> (items self);
     __dict__ := <[key := value]> (__dict__ self) |}.

(** [v == 'None'] *)
Definition is_None_str (v : pickle.value) : bool :=
  match v with
  | pickle.VStr s => bool_decide (s = "None"%string)
  | _ => false
  end.

(** The loop of [__init__] over the items of a [dict]: the string ['None']
    is stored as [None]. *)
Fixpoint init_items (self : t) (kvs : list (string * pickle.value)) : t :=
  match kvs with
  | [] => self
  | (k, v) :: rest =>
      let self := __setitem__ self k v in
      let self := if is_None_str v then __setitem__ self k pickle.VNone else self in
      init_items self rest
  end.

Fixpoint init_args (self : t) (args : list arg) : t :=
  match args with
  | [] => self
  | Dict d :: rest => init_args (init_items self d) rest
  | Pairs _ :: rest => init_args self rest
  end.

(** A keyword argument named [self] cannot be bound: the first parameter of
    [__init__] and of [update] has that name, and the call raises
    [TypeError] before the body runs. *)
Definition binds (kwargs : list (string * pickle.value)) : bool :=
  bool_decide ("self"%string ∉ kwargs.*1).

Definition __init__ (args : list arg) (kwargs : list (string * pickle.value))
    : result t :=
  if binds kwargs then
    match dict_init args kwargs with
    | Returned base =>
        let self := {| items := base; __dict__ := ∅ |} in
        let self := init_args self args in
        Returned (match kwargs with [] => self | _ => init_items self kwargs end)
    | Raised e => Raised e
    end
  else Raised (Core TypeError).

(** The loops of [update]: values are stored as they come. *)
Fixpoint update_items (self : t) (kvs : list (string * pickle.value)) : t :=
  match kvs with
  | [] => self
  | (k, v) :: rest => update_items (__setitem__ self k v) rest
  end.

Fixpoint update_args (self : t) (args : list arg) : t :=
  match args with
  | [] => self
  | Dict d :: rest => update_args (update_items self d) rest
  | Pairs _ :: rest => update_args self rest
  end.

(** The object is returned as the call leaves it, also when it raises. *)
Definition update (self : t) (args : list arg)
    (kwargs : list (string * pickle.value)) : result unit * t :=
  if binds kwargs then
    let self := update_args self args in
    (Returned tt, match kwargs with [] => self | _ => update_items self kwargs end)
  else (Raised (Core TypeError), self).

(** Called when attribute lookup has not found [attr] in [__dict__]. *)
Definition __getattr__ (self : t) (attr : string) : M pickle.value :=
  match items self !! attr with
  | None =>
      let* _u := print (attr ++ " is not in Map") in
      ret pickle.VNone
  | Some v => ret v
  end.

Definition __setattr__ (self : t) (key : string) (value : pickle.value) : t :=
  __setitem__ self key value.

(** The object is returned as the call leaves it, also when it raises: the
    item is deleted before [__dict__] is touched. *)
Definition __delitem__ (self : t) (key : string) : result unit * t :=
  match items self !! key with
  | None => (Raised (KeyError key), self)
  | Some _ =>
      let self := {| items := delete key (items self);
                     __dict__ := __dict__ self |} in
      match __dict__ self !! key with
      | None => (Raised (KeyError key), self)
      | Some _ =>
          (Returned tt,
           {| items := items self; __dict__ := delete key (__dict__ self) |})
      end
  end.


End Map.

(** The string ['None'] read as [None], any other value as itself. *)
Definition none_of_str (v : pickle.value) : pickle.value :=
  if Map.is_None_str v then pickle.VNone else v.

(** *** [class timeout] *)

Module timeout.

Record t : Type := { seconds : Z; error_message : string }.

(** [int(x)] of a finite number: the fraction is cut off, towards zero. *)
Definition int (x : QArith_base.Q) : Z :=
  Z.quot (QArith_base.Qnum x) (Z.pos (QArith_base.Qden x)).

Definition __init__ (seconds : QArith_base.Q) (error_message : string) : t :=
  {| seconds := int seconds; error_message := error_message |}.

Definition handle_timeout (self : t) : raised :=
  TimeoutError (error_message self).

(** The part of the process [signal.signal] and [signal.alarm] act on:
    whether the caller is the main thread, the object whose [handle_timeout]
    answers [SIGALRM], if one was installed, and the seconds until the
    pending alarm, 0 when none is pending. *)
Record signals : Type := { main_thread : bool; sigalrm : option t; alarm : Z }.

(** [signal.signal(signal.SIGALRM, self.handle_timeout)]: handlers can be
    installed from the main thread only. *)
Definition signal_signal (self : t) (sg : signals) : result unit * signals :=
  if main_thread sg
  then (Returned tt,
        {| main_thread := main_thread sg; sigalrm := Some self;
           alarm := alarm sg |})
  else (Raised ValueError, sg).

(** [signal.alarm(n)]: the argument has to fit a C [int]; the system call
    reads it as unsigned, replaces the pending alarm, 0 cancelling it, and
    the call returns the seconds the old alarm had left. *)
Definition signal_alarm (n : Z) (sg : signals) : result Z * signals :=
  if (n <? - 2 ^ 31) || (2 ^ 31 <=? n) then (Raised OverflowError, sg)
  else (Returned (alarm sg),
        {| main_thread := main_thread sg; sigalrm := sigalrm sg;
           alarm := n mod 2 ^ 32 |}).

(** The state is returned as the call leaves it, also when it raises: the
    handler is installed before the alarm is armed. *)
Definition __enter__ (self : t) (sg : signals) : result unit * signals :=
  match signal_signal self sg with
  | (Returned _, sg) =>
      if 0 <? seconds self then
        match signal_alarm (seconds self) sg with
        | (Returned _, sg) => (Returned tt, sg)
        | (Raised e, sg) => (Raised e, sg)
        end
      else (Returned tt, sg)
  | (Raised e, sg) => (Raised e, sg)
  end.

Definition __exit__ (self : t) (sg : signals) : result unit * signals :=
  match signal_alarm 0 sg with
  | (Returned _, sg) => (Returned tt, sg)
  | (Raised e, sg) => (Raised e, sg)
  end.

End timeout.

(** The pairs of the positional arguments that are [dict]s, in order. *)
Fixpoint dict_items (args : list Map.arg) : list (string * pickle.value) :=
  match args with
  | [] => []
  | Map.Dict d :: rest => d ++ dict_items rest
  | Map.Pairs _ :: rest => dict_items rest
  end.

(** * Properties *)

(** ** The codec *)

Section codec.

Import pickle.

Lemma byte_of_N_to_N (n : N) : (n < 256)%N → Byte.to_N (byte_of_N n) = n.
Proof.
  intros Hn. unfold byte_of_N.
  destruct (Byte.of_N n) as [b|] eqn:E.
  - simpl. by apply Byte.to_of_N.
  - apply Byte.of_N_None_iff in E. lia.
Qed.

Lemma unvarint_digits (fuel : nat) : ∀ (n : N) (tl : bytes),
  (n < 2 ^ N.of_nat fuel)%N →
  unvarint (varint_digits (S fuel) n ++ tl) = Some (n, tl).
Proof.
  induction fuel as [|fuel IH]; intros n tl Hn.
  - assert (n = 0%N) as -> by (simpl in Hn; lia). reflexivity.
  - change (varint_digits (S (S fuel)) n)
      with (if (n <? 128)%N then [byte_of_N n]
            else byte_of_N (128 + n mod 128) :: varint_digits (S fuel) (n / 128)).
    destruct (N.ltb_spec n 128) as [Hlt|Hge].
    + cbn [app unvarint]. rewrite byte_of_N_to_N by lia.
      destruct (N.ltb_spec n 128); [done | lia].
    + cbn [app unvarint].
      assert (n / 128 < 2 ^ N.of_nat fuel)%N as Hq.
      { rewrite Nat2N.inj_succ, N.pow_succ_r' in Hn.
        apply N.Div0.div_lt_upper_bound. lia. }
      pose proof (N.div_mod n 128 ltac:(lia)) as Hdm.
      pose proof (N.mod_lt n 128 ltac:(lia)) as Hm.
      specialize (IH (n / 128)%N tl Hq).
      set (m := (n mod 128)%N) in *. set (q := (n / 128)%N) in *.
      clearbody m q. clear Hn Hq.
      rewrite byte_of_N_to_N by lia.
      destruct (N.ltb_spec (128 + m) 128); [lia |].
      rewrite IH. simpl. f_equal. f_equal. lia.
Qed.

Lemma size_nat_bound (n : N) : (n < 2 ^ N.of_nat (N.size_nat n))%N.
Proof.
  destruct n as [|p]; [done |].
  simpl N.size_nat.
  induction p as [p IH|p IH|]; simpl Pos.size_nat;
    rewrite ?Nat2N.inj_succ, ?N.pow_succ_r'; lia.
Qed.

Lemma unvarint_varint (n : N) (tl : bytes) :
  unvarint (varint n ++ tl) = Some (n, tl).
Proof. apply unvarint_digits, size_nat_bound. Qed.

Lemma varint_nonempty (n : N) : (1 ≤ length (varint n))%nat.
Proof.
  unfold varint. simpl.
  destruct (n <? 128)%N; simpl; lia.
Qed.

Lemma unzigzag_zigzag (z : Z) : unzigzag (zigzag z) = z.
Proof.
  unfold zigzag, unzigzag.
  destruct (Z.ltb_spec z 0) as [Hneg|Hpos].
  - assert (Z.to_N (2 * - z - 1) = (1 + 2 * Z.to_N (- z - 1))%N) as -> by lia.
    rewrite N.even_add_mul_2. simpl N.even. cbn match.
    replace ((1 + 2 * Z.to_N (- z - 1) + 1) / 2)%N with (Z.to_N (- z - 1) + 1)%N.
    + lia.
    + apply N.div_unique with (r := 0%N); lia.
  - assert (Z.to_N (2 * z) = (2 * Z.to_N z)%N) as -> by lia.
    rewrite N.even_mul. simpl.
    replace (2 * Z.to_N z / 2)%N with (Z.to_N z).
    + lia.
    + apply N.div_unique with (r := 0%N); lia.
Qed.

Lemma unsized_sized (p tl : bytes) : unsized (sized p ++ tl) = Some (p, tl).
Proof.
  unfold unsized, sized. rewrite <- app_assoc, unvarint_varint. simpl.
  destruct (N.leb_spec (N.of_nat (length p)) (N.of_nat (length (p ++ tl))))
    as [_|Hgt].
  - rewrite Nat2N.id. by rewrite take_app_length, drop_app_length.
  - rewrite length_app in Hgt. lia.
Qed.

Lemma enc_nonempty (v : value) : serializable v → (1 ≤ length (enc v))%nat.
Proof.
  destruct v as [|[]| | | | | |]; simpl; intros Hs;
    first [lia | by destruct Hs].
Qed.

Lemma serializable_list (vs : list value) :
  serializable (VList vs) → Forall (λ v, serializable v) vs.
Proof.
  simpl. intros Hs. apply Is_true_eq_true in Hs.
  rewrite forallb_forall in Hs. apply Forall_forall. intros x Hx.
  apply Is_true_eq_left, Hs. by apply list_elem_of_In.
Qed.

Lemma serializable_dict (kvs : list (value * value)) :
  serializable (VDict kvs) →
  Forall (λ kv, serializable kv.1 ∧ serializable kv.2) kvs.
Proof.
  simpl. intros Hs. apply Is_true_eq_true in Hs.
  rewrite forallb_forall in Hs. apply Forall_forall. intros x Hx.
  apply andb_prop_elim, Is_true_eq_left, Hs. by apply list_elem_of_In.
Qed.

Lemma length_concat_elem {A : Type} (f : A → bytes) (x : A) (l : list A) :
  x ∈ l → (length (f x) ≤ length (concat (map f l)))%nat.
Proof.
  induction 1 as [x l|x y l _ IH]; simpl; rewrite length_app; lia.
Qed.

Lemma length_concat_count {A : Type} (f : A → bytes) (l : list A) :
  Forall (λ x, (1 ≤ length (f x))%nat) l →
  (length l ≤ length (concat (map f l)))%nat.
Proof.
  induction 1 as [|x l Hx _ IH]; simpl; [lia |]. rewrite length_app. lia.
Qed.

Lemma dec_seq_enc (d : bytes → option (value * bytes)) (vs : list value) :
  Forall (λ v, ∀ tl, d (enc v ++ tl) = Some (v, tl)) vs →
  ∀ tl, dec_seq d (length vs) (concat (map enc vs) ++ tl) = Some (vs, tl).
Proof.
  induction 1 as [|v vs Hv _ IH]; intros tl; [done |].
  simpl. rewrite <- app_assoc, Hv. simpl. by rewrite IH.
Qed.

Lemma dec_pairs_enc (d : bytes → option (value * bytes))
    (kvs : list (value * value)) :
  Forall (λ kv, (∀ tl, d (enc kv.1 ++ tl) = Some (kv.1, tl))
                ∧ (∀ tl, d (enc kv.2 ++ tl) = Some (kv.2, tl))) kvs →
  ∀ tl, dec_pairs d (length kvs)
          (concat (map (λ kv, enc kv.1 ++ enc kv.2) kvs) ++ tl)
        = Some (kvs, tl).
Proof.
  induction 1 as [|[k v] kvs [Hk Hv] _ IH]; intros tl; [done |].
  simpl in *. rewrite <- !app_assoc, Hk. simpl. rewrite Hv. simpl.
  by rewrite IH.
Qed.

Lemma dec_int (fuel : nat) (rest : bytes) :
  dec (S fuel) (tag_int :: rest)
  = '(n, rest1) ← unvarint rest; Some (VInt (unzigzag n), rest1).
Proof. reflexivity. Qed.

Lemma dec_str (fuel : nat) (rest : bytes) :
  dec (S fuel) (tag_str :: rest)
  = '(p, rest1) ← unsized rest; Some (VStr (string_of_list_byte p), rest1).
Proof. reflexivity. Qed.

Lemma dec_bytes (fuel : nat) (rest : bytes) :
  dec (S fuel) (tag_bytes :: rest)
  = '(p, rest1) ← unsized rest; Some (VBytes p, rest1).
Proof. reflexivity. Qed.

Lemma dec_list (fuel : nat) (rest : bytes) :
  dec (S fuel) (tag_list :: rest)
  = '(n, rest1) ← unvarint rest;
    if (n <=? N.of_nat (length rest1))%N then
      '(vs, rest2) ← dec_seq (dec fuel) (N.to_nat n) rest1;
      Some (VList vs, rest2)
    else None.
Proof. reflexivity. Qed.

Lemma dec_dict (fuel : nat) (rest : bytes) :
  dec (S fuel) (tag_dict :: rest)
  = '(n, rest1) ← unvarint rest;
    if (n <=? N.of_nat (length rest1))%N then
      '(kvs, rest2) ← dec_pairs (dec fuel) (N.to_nat n) rest1;
      Some (VDict kvs, rest2)
    else None.
Proof. reflexivity. Qed.

(** Reading back what [enc] wrote returns the value and the bytes that
    followed it, with any fuel that covers the encoding. *)
Lemma dec_enc (v : value) :
  serializable v →
  ∀ (fuel : nat) (tl : bytes),
    (length (enc v) ≤ fuel)%nat → dec fuel (enc v ++ tl) = Some (v, tl).
Proof.
  induction v as [|b|z|s|bs|vs IH|kvs IH|fd] using value_ind;
    intros Hs fuel tl Hfuel;
    (destruct fuel as [|fuel];
     [pose proof (enc_nonempty _ Hs); lia |]).
  - done.
  - by destruct b.
  - cbn [enc app]. rewrite dec_int, unvarint_varint. cbn.
    by rewrite unzigzag_zigzag.
  - cbn [enc app]. rewrite dec_str, unsized_sized. cbn.
    by rewrite string_of_list_byte_of_string.
  - cbn [enc app]. by rewrite dec_bytes, unsized_sized.
  - cbn [enc app length] in *. rewrite length_app in Hfuel.
    rewrite dec_list, <- app_assoc, unvarint_varint. cbn [mbind option_bind].
    pose proof (serializable_list _ Hs) as Hall.
    assert (length vs ≤ length (concat (map enc vs)))%nat as Hcount.
    { apply length_concat_count. eapply Forall_impl; [exact Hall |].
      intros x. apply enc_nonempty. }
    destruct (N.leb_spec (N.of_nat (length vs))
                (N.of_nat (length (concat (map enc vs) ++ tl)))) as [_|Hgt];
      [| rewrite length_app in Hgt; lia].
    rewrite Nat2N.id, dec_seq_enc; [done |].
    rewrite Forall_forall in IH, Hall. apply Forall_forall.
    intros x Hx tl'. apply IH; [done | by apply Hall |].
    pose proof (length_concat_elem enc x vs Hx). lia.
  - cbn [enc app length] in *. rewrite length_app in Hfuel.
    rewrite dec_dict, <- app_assoc, unvarint_varint. cbn [mbind option_bind].
    pose proof (serializable_dict _ Hs) as Hall.
    set (f := λ kv : value * value, enc kv.1 ++ enc kv.2) in *.
    assert (length kvs ≤ length (concat (map f kvs)))%nat as Hcount.
    { apply length_concat_count. eapply Forall_impl; [exact Hall |].
      intros x [Hx _]. unfold f. rewrite length_app.
      pose proof (enc_nonempty _ Hx). lia. }
    destruct (N.leb_spec (N.of_nat (length kvs))
                (N.of_nat (length (concat (map f kvs) ++ tl)))) as [_|Hgt];
      [| rewrite length_app in Hgt; lia].
    rewrite Nat2N.id. unfold f. rewrite dec_pairs_enc; [done |].
    rewrite Forall_forall in IH, Hall. apply Forall_forall.
    intros x Hx. destruct (IH x Hx) as [IHk IHv].
    destruct (Hall x Hx) as [Hk Hv].
    pose proof (length_concat_elem f x kvs Hx) as Hlen.
    replace (length (f x)) with (length (enc x.1) + length (enc x.2))%nat
      in Hlen by (unfold f; by rewrite length_app).
    clearbody f. unfold bytes in *.
    split; intros tl'; [apply IHk | apply IHv]; (done || lia).
  - by destruct Hs.
Qed.

(** What [dumps] wrote, [loads] reads back. *)
Lemma loads_dumps (v : value) (data : bytes) :
  dumps v = Ret data → loads (Some data) = Ret v.
Proof.
  unfold dumps. destruct (serializable v) eqn:Hs; [| done].
  intros [= <-]. unfold loads, decode.
  rewrite (Byte.byte_dec_lb (x := codec_version) eq_refl).
  pose proof (dec_enc v (Is_true_eq_left _ Hs) (S (length (enc v))) []) as Hd.
  rewrite app_nil_r in Hd. rewrite Hd; [done | lia].
Qed.

Lemma dumps_serializable (v : value) :
  serializable v → dumps v = Ret (codec_version :: enc v).
Proof. unfold dumps. intros Hs. apply Is_true_eq_true in Hs. by rewrite Hs. Qed.

End codec.

(** ** Calls in sequence *)

Lemma bind_ret {A B : Type} (m : M A) (k : A → M B) (s s' : state) (a : A) :
  m s = (Ret a, s') → bind m k s = k a s'.
Proof. unfold bind. by intros ->. Qed.

Lemma bind_raise {A B : Type} (m : M A) (k : A → M B) (s s' : state) (e : exn) :
  m s = (Raise e, s') → bind m k s = (Raise e, s').
Proof. unfold bind. by intros ->. Qed.

Lemma bind_blocks {A B : Type} (m : M A) (k : A → M B) (s s' : state) :
  m s = (Blocks, s') → bind m k s = (Blocks, s').
Proof. unfold bind. by intros ->. Qed.

Lemma with_store_id (s : state) : with_store (store s) s = s.
Proof. by destruct s. Qed.

(** ** The store client *)

Section store.

Import redis.

Lemma connect_up (c : Redis) (w : world) (srv : server) :
  w !! endpoint c = Some srv → credential c = requirepass srv →
  connect c w = Ret srv.
Proof.
  unfold connect, endpoint. intros -> Hc. by rewrite decide_True.
Qed.

(** A command that leaves the key space as it was leaves the world as it
    was. *)
Lemma command_read {A : Type} (c : Redis)
    (f : gmap string entry → outcome A * gmap string entry)
    (w : world) (srv : server) (res : outcome A) :
  w !! endpoint c = Some srv → credential c = requirepass srv →
  f (keyspace srv) = (res, keyspace srv) →
  command c f w = (res, w).
Proof.
  intros Hw Hc Hf. unfold command. rewrite (connect_up c w srv Hw Hc), Hf.
  f_equal. apply insert_id. by destruct srv.
Qed.

Lemma command_write {A : Type} (c : Redis)
    (f : gmap string entry → outcome A * gmap string entry)
    (w : world) (srv : server) (res : outcome A) (ks : gmap string entry) :
  w !! endpoint c = Some srv → credential c = requirepass srv →
  f (keyspace srv) = (res, ks) →
  command c f w
  = (res, <[endpoint c := {| requirepass := requirepass srv; keyspace := ks |}]> w).
Proof.
  intros Hw Hc Hf. unfold command. by rewrite (connect_up c w srv Hw Hc), Hf.
Qed.

Lemma list_at_insert (k : string) (l : list bytes) (ks : gmap string entry) :
  list_at k (<[k := RList l]> ks) = Some l.
Proof. unfold list_at. by rewrite lookup_insert_eq. Qed.

Lemma list_at_put_list (k : string) (l : list bytes) (ks : gmap string entry) :
  list_at k (put_list k l ks) = Some l.
Proof.
  unfold list_at, put_list. destruct l.
  - by rewrite lookup_delete_eq.
  - by rewrite lookup_insert_eq.
Qed.

End store.

(** ** The queue *)

Section queue.

Import redis.

Variables (ep : string * Z) (pw : option string) (k : string).

Lemma lift_ret {A : Type} (o : outcome A) (s : state) :
  bind (lift o) ret s = (o, s).
Proof. unfold bind, lift, ret. by destruct o. Qed.

Lemma call_read {A : Type} (h : RedisQueue.t)
    (f : gmap string entry → outcome A * gmap string entry)
    (s : state) (l : list bytes) (res : outcome A) :
  queue_handle ep pw k h → queue_holds s ep pw k l →
  (∀ ks, list_at k ks = Some l → f ks = (res, ks)) →
  call (command (RedisQueue.r h) f) s = (res, s).
Proof.
  intros (Hep & Hpw & Hk) (srv & Hs & Hrp & Hl) Hf. unfold call.
  rewrite (command_read _ f (store s) srv res); [| congruence ..| by apply Hf].
  by rewrite with_store_id.
Qed.

Lemma call_write {A : Type} (h : RedisQueue.t)
    (f : gmap string entry → outcome A * gmap string entry)
    (s : state) (l l' : list bytes) (res : outcome A) :
  queue_handle ep pw k h → queue_holds s ep pw k l →
  (∀ ks, list_at k ks = Some l →
         ∃ ks', f ks = (res, ks') ∧ list_at k ks' = Some l') →
  ∃ s', call (command (RedisQueue.r h) f) s = (res, s')
        ∧ queue_holds s' ep pw k l'
        ∧ heap s' = heap s ∧ stdout s' = stdout s.
Proof.
  intros (Hep & Hpw & Hk) (srv & Hs & Hrp & Hl) Hf. unfold call.
  destruct (Hf _ Hl) as (ks' & Hfks & Hl').
  rewrite (command_write _ f (store s) srv res ks'); [| congruence ..| done].
  eexists. split; [reflexivity |]. split; [| done].
  exists {| requirepass := requirepass srv; keyspace := ks' |}.
  simpl. rewrite Hep, lookup_insert_eq. done.
Qed.

Lemma size_holds (h : RedisQueue.t) (s : state) (l : list bytes) :
  queue_handle ep pw k h → queue_holds s ep pw k l →
  RedisQueue.size h s = (Ret (Z.of_nat (length l)), s).
Proof.
  intros Hh Hq. unfold RedisQueue.size, llen.
  apply (call_read h _ s l); [done ..|].
  destruct Hh as (_ & _ & ->). by intros ks ->.
Qed.

Lemma put_holds (h : RedisQueue.t) (v : pickle.value) (b : bytes)
    (s : state) (l : list bytes) :
  queue_handle ep pw k h → queue_holds s ep pw k l →
  pickle.dumps v = Ret b →
  ∃ s', RedisQueue.put h v s = (Ret (Z.of_nat (S (length l))), s')
        ∧ queue_holds s' ep pw k (b :: l)
        ∧ heap s' = heap s ∧ stdout s' = stdout s.
Proof.
  intros Hh Hq Hd. unfold RedisQueue.put.
  rewrite (bind_ret _ _ s s b) by (unfold lift; by rewrite Hd).
  unfold lpush. apply (call_write h _ s l); [done ..|].
  destruct Hh as (_ & _ & ->). intros ks ->.
  eexists. split; [reflexivity |]. apply list_at_insert.
Qed.

(** A pop that finds an element hands its payload to the decoder. *)
Lemma get_holds (h : RedisQueue.t) (is_blocking : bool) (timeout : option Z)
    (s : state) (l : list bytes) (b : bytes) :
  queue_handle ep pw k h → queue_holds s ep pw k (l ++ [b]) →
  (is_blocking = true → 0 ≤ default 0 timeout) →
  ∃ s', RedisQueue.get h is_blocking timeout s = (pickle.loads (Some b), s')
        ∧ queue_holds s' ep pw k l
        ∧ heap s' = heap s ∧ stdout s' = stdout s.
Proof.
  intros Hh Hq Ht. unfold RedisQueue.get. destruct is_blocking.
  - destruct (call_write h
        (λ ks,
           let t := default 0 timeout in
           if t <? 0 then (Raise ResponseError, ks)
           else match list_at (RedisQueue.key h) ks with
                | Some l0 =>
                    match last l0 with
                    | Some x =>
                        (Ret (Some (RedisQueue.key h, x)),
                         put_list (RedisQueue.key h) (removelast l0) ks)
                    | None => if t =? 0 then (Blocks, ks) else (Ret None, ks)
                    end
                | None => (Raise ResponseError, ks)
                end)
        s (l ++ [b]) l (Ret (Some (RedisQueue.key h, b))) Hh Hq)
      as (s' & Hcall & Hq' & Hheap).
    { destruct Hh as (_ & _ & ->). intros ks ->. cbn zeta.
      destruct (Z.ltb_spec (default 0 timeout) 0); [specialize (Ht eq_refl); lia |].
      rewrite last_snoc, removelast_last.
      eexists. split; [reflexivity |]. apply list_at_put_list. }
    exists s'. split; [| done].
    rewrite (bind_ret _ _ s s' (Some b)); [apply lift_ret |].
    rewrite (bind_ret _ _ s s' (Some (RedisQueue.key h, b))); [| exact Hcall].
    reflexivity.
  - destruct (call_write h
        (λ ks,
           match list_at (RedisQueue.key h) ks with
           | Some l0 =>
               match last l0 with
               | Some x =>
                   (Ret (Some x), put_list (RedisQueue.key h) (removelast l0) ks)
               | None => (Ret None, ks)
               end
           | None => (Raise ResponseError, ks)
           end)
        s (l ++ [b]) l (Ret (Some b)) Hh Hq)
      as (s' & Hcall & Hq' & Hheap).
    { destruct Hh as (_ & _ & ->). intros ks ->.
      rewrite last_snoc, removelast_last.
      eexists. split; [reflexivity |]. apply list_at_put_list. }
    exists s'. split; [| done].
    rewrite (bind_ret _ _ s s' (Some b)); [apply lift_ret | exact Hcall].
Qed.

(** What a pop does on the empty queue, by the way it waits. *)
Lemma get_empty (h : RedisQueue.t) (is_blocking : bool) (timeout : option Z)
    (s : state) :
  queue_handle ep pw k h → queue_holds s ep pw k [] →
  RedisQueue.get h is_blocking timeout s
  = (if is_blocking then
       if default 0 timeout <? 0 then Raise ResponseError
       else if default 0 timeout =? 0 then Blocks
       else Raise TypeError
     else Raise TypeError, s).
Proof.
  intros Hh Hq. unfold RedisQueue.get. destruct is_blocking.
  - unfold brpop.
    destruct (default 0 timeout <? 0) eqn:Hneg;
      [| destruct (default 0 timeout =? 0) eqn:Hzero].
    + apply bind_raise, bind_raise, (call_read h _ s []); [done ..|].
      by intros ks _.
    + apply bind_blocks, bind_blocks, (call_read h _ s []); [done ..|].
      destruct Hh as (_ & _ & ->). by intros ks ->.
    + apply bind_raise.
      rewrite (bind_ret _ _ s s None); [done |].
      apply (call_read h _ s []); [done ..|].
      destruct Hh as (_ & _ & ->). by intros ks ->.
  - rewrite (bind_ret _ _ s s None); [done |].
    unfold rpop. apply (call_read h _ s []); [done ..|].
    destruct Hh as (_ & _ & ->). by intros ks ->.
Qed.

Lemma get_without_pop_holds (h : RedisQueue.t) (s : state) (l : list bytes) :
  queue_handle ep pw k h → queue_holds s ep pw k l →
  RedisQueue.get_without_pop h s = (Ret (last l), s).
Proof.
  intros Hh Hq. unfold RedisQueue.get_without_pop, RedisQueue.is_empty.
  rewrite (bind_ret _ _ s s (Z.of_nat (length l) =? 0)).
  2: { by rewrite (bind_ret _ _ s s _ (size_holds h s l Hh Hq)). }
  destruct l as [|x l]; [done |].
  replace (Z.of_nat (length (x :: l)) =? 0) with false
    by (symmetry; apply Z.eqb_neq; simpl; lia).
  unfold lindex. apply (call_read h _ s (x :: l)); [done ..|].
  destruct Hh as (_ & _ & ->). intros ks ->. cbn zeta.
  replace (-1 <? 0) with true by done.
  destruct (Z.ltb_spec (Z.of_nat (length (x :: l)) + -1) 0) as [Hlt|_];
    [simpl in Hlt; lia |].
  do 2 f_equal. rewrite last_lookup. f_equal. simpl. lia.
Qed.

End queue.

Section fifo.

Import redis.

Variables (ep : string * Z) (pw : option string) (k : string).

Lemma put_all_holds (pushes : list (RedisQueue.t * pickle.value)) :
  ∀ (s : state) (l : list bytes),
    queue_holds s ep pw k l →
    Forall (λ p, queue_handle ep pw k p.1 ∧ pickle.serializable p.2) pushes →
    ∃ ns s', put_all pushes s = (Ret ns, s')
             ∧ queue_holds s' ep pw k (rev (map payload pushes.*2) ++ l).
Proof.
  induction pushes as [|[h v] pushes IH]; intros s l Hq Hall.
  - by exists [], s.
  - apply Forall_cons in Hall as [[Hh Hv] Hall]. simpl in Hh, Hv.
    destruct (put_holds ep pw k h v (payload v) s l Hh Hq
                (dumps_serializable v Hv)) as (s1 & Hput & Hq1 & _).
    destruct (IH s1 _ Hq1 Hall) as (ns & s2 & Hrest & Hq2).
    exists (Z.of_nat (S (length l)) :: ns), s2. split.
    + cbn [put_all]. rewrite (bind_ret _ _ s s1 _ Hput).
      by rewrite (bind_ret _ _ s1 s2 _ Hrest).
    + cbn [fmap list_fmap map rev]. by rewrite <- app_assoc.
Qed.

Lemma get_all_holds (vs : list pickle.value) :
  ∀ (pops : list (RedisQueue.t * bool * option Z)) (s : state) (l : list bytes),
    queue_holds s ep pw k (l ++ rev (map payload vs)) →
    Forall (λ v, pickle.serializable v) vs →
    Forall (λ p, queue_handle ep pw k p.1.1
                 ∧ (p.1.2 = true → 0 ≤ default 0 p.2)) pops →
    length pops = length vs →
    ∃ s', get_all pops s = (Ret vs, s') ∧ queue_holds s' ep pw k l.
Proof.
  induction vs as [|v vs IH]; intros pops s l Hq Hvs Hpops Hlen.
  - destruct pops; [| done]. exists s. split; [done |].
    by rewrite app_nil_r in Hq.
  - destruct pops as [|[[h is_blocking] timeout] pops]; [done |].
    apply Forall_cons in Hvs as [Hv Hvs].
    apply Forall_cons in Hpops as [[Hh Ht] Hpops]. simpl in Hh, Ht.
    cbn [map rev] in Hq. rewrite app_assoc in Hq.
    destruct (get_holds ep pw k h is_blocking timeout s _ _ Hh Hq Ht)
      as (s1 & Hget & Hq1 & _).
    rewrite (loads_dumps v (payload v) (dumps_serializable v Hv)) in Hget.
    destruct (IH pops s1 l Hq1 Hvs Hpops) as (s2 & Hrest & Hq2);
      [by inversion Hlen |].
    exists s2. split; [| done].
    cbn [get_all]. rewrite (bind_ret _ _ s s1 _ Hget).
    by rewrite (bind_ret _ _ s1 s2 _ Hrest).
Qed.

End fifo.

(** ** The shared dictionary *)

Section dict.

Import redis.

Lemma keyed_read {A : Type} (c : Redis) (key : string)
    (f : gmap string entry → outcome A * gmap string entry)
    (s : state) (h : gmap string bytes) (res : outcome A) :
  hash_holds s c key h →
  (∀ ks, hash_at key ks = Some h → f ks = (res, ks)) →
  call (keyed c (Some key) (λ _, command c f)) s = (res, s).
Proof.
  intros (srv & Hs & Hc & Hh) Hf. unfold call, keyed.
  rewrite (connect_up c _ srv Hs Hc).
  rewrite (command_read c f (store s) srv res Hs Hc (Hf _ Hh)).
  by rewrite with_store_id.
Qed.

Lemma keyed_write {A : Type} (c : Redis) (key : string)
    (f : gmap string entry → outcome A * gmap string entry)
    (s : state) (h h' : gmap string bytes) (res : outcome A) :
  hash_holds s c key h →
  (∀ ks, hash_at key ks = Some h →
         ∃ ks', f ks = (res, ks') ∧ hash_at key ks' = Some h') →
  ∃ s', call (keyed c (Some key) (λ _, command c f)) s = (res, s')
        ∧ hash_holds s' c key h'
        ∧ heap s' = heap s ∧ stdout s' = stdout s
        ∧ utils_RedisDict s' = utils_RedisDict s.
Proof.
  intros (srv & Hs & Hc & Hh) Hf. unfold call, keyed.
  rewrite (connect_up c _ srv Hs Hc).
  destruct (Hf _ Hh) as (ks' & Hfks & Hh').
  rewrite (command_write c f (store s) srv res ks' Hs Hc Hfks).
  eexists. split; [reflexivity |]. split; [| done].
  exists {| requirepass := requirepass srv; keyspace := ks' |}.
  simpl. by rewrite lookup_insert_eq.
Qed.

Lemma set_db_configures (self : nat) (key : string) (host password : option string)
    (s : state) :
  is_Some (heap s !! self) →
  ∃ s', RedisDict.set_db self key host password s = (Ret tt, s')
        ∧ configured s' self key (dict_client host password)
        ∧ store s' = store s ∧ stdout s' = stdout s
        ∧ utils_RedisDict s' = utils_RedisDict s.
Proof.
  intros [o Ho]. unfold RedisDict.set_db.
  rewrite (bind_ret _ _ s s o) by (unfold deref; by rewrite Ho).
  eexists. split; [reflexivity |]. unfold configured. simpl.
  by rewrite lookup_insert_eq.
Qed.

Lemma set_holds (self : nat) (field : string) (v : pickle.value) (b : bytes)
    (key : string) (c : Redis) (s : state) (h : gmap string bytes) :
  configured s self key c → hash_holds s c key h → pickle.dumps v = Ret b →
  ∃ s', RedisDict.set self field v s = (Ret tt, s')
        ∧ hash_holds s' c key (<[field := b]> h)
        ∧ heap s' = heap s ∧ stdout s' = stdout s
        ∧ utils_RedisDict s' = utils_RedisDict s.
Proof.
  intros Hcfg Hh Hd. unfold RedisDict.set.
  rewrite (bind_ret _ _ s s _) by (unfold deref; by rewrite Hcfg).
  rewrite (bind_ret _ _ s s b) by (unfold lift; by rewrite Hd).
  rewrite (bind_ret _ _ s s c) by done. cbn [exp_key].
  destruct (keyed_write c key
              (λ ks, match hash_at key ks with
                     | Some h0 =>
                         (Ret (if h0 !! field is Some _ then 0 else 1),
                          <[key := RHash (<[field := b]> h0)]> ks)
                     | None => (Raise ResponseError, ks)
                     end)
              s h (<[field := b]> h)
              (Ret (if h !! field is Some _ then 0 else 1)) Hh)
    as (s' & Hcall & Hrest).
  { intros ks ->. eexists. split; [reflexivity |].
    unfold hash_at. by rewrite lookup_insert_eq. }
  exists s'. split; [| done].
  by rewrite (bind_ret _ _ s s' _ Hcall).
Qed.

Lemma get_present (self : nat) (field : string) (b : bytes)
    (key : string) (c : Redis) (s : state) (h : gmap string bytes) :
  configured s self key c → hash_holds s c key h → h !! field = Some b →
  RedisDict.get self field s = (pickle.loads (Some b), s).
Proof.
  intros Hcfg Hh Hf. unfold RedisDict.get.
  rewrite (bind_ret _ _ s s _) by (unfold deref; by rewrite Hcfg).
  rewrite (bind_ret _ _ s s c) by done. cbn [exp_key].
  rewrite (bind_ret _ _ s s true).
  2: { unfold hexists. apply (keyed_read c key _ s h); [done |].
       intros ks ->. by rewrite Hf. }
  rewrite (bind_ret _ _ s s (Some b)); [apply lift_ret |].
  unfold hget. apply (keyed_read c key _ s h); [done |].
  intros ks ->. by rewrite Hf.
Qed.

Lemma get_absent (self : nat) (field : string)
    (key : string) (c : Redis) (s : state) (h : gmap string bytes) :
  configured s self key c → hash_holds s c key h → h !! field = None →
  RedisDict.get self field s
  = (Ret pickle.VNone,
     {| store := store s; heap := heap s;
        stdout := stdout s ++ [missing_field_line field (Some key)];
        utils_RedisDict := utils_RedisDict s |}).
Proof.
  intros Hcfg Hh Hf. unfold RedisDict.get.
  rewrite (bind_ret _ _ s s _) by (unfold deref; by rewrite Hcfg).
  rewrite (bind_ret _ _ s s c) by done. cbn [exp_key].
  rewrite (bind_ret _ _ s s false); [done |].
  unfold hexists. apply (keyed_read c key _ s h); [done |].
  intros ks ->. by rewrite Hf.
Qed.

End dict.

(** ** The singleton *)

Lemma get_instance_again (cls : class) (instances instances' : gmap string nat)
    (s s' : state) (o : nat) :
  get_instance cls instances s = (Ret (o, instances'), s') →
  get_instance cls instances' s' = (Ret (o, instances'), s').
Proof.
  unfold get_instance. destruct (instances !! cls_name cls) as [o'|] eqn:E.
  - intros [= -> -> ->]. by rewrite E.
  - unfold bind, ret. destruct (cls_call cls s) as [[o'| |] s1]; [| done ..].
    intros [= -> <- ->]. by rewrite lookup_insert_eq.
Qed.

Lemma import_first (s : state) :
  utils_RedisDict s = None →
  import_RedisDict s
  = (Ret (fresh (dom (heap s))),
     {| store := store s;
        heap := <[fresh (dom (heap s)) := {| exp_key := None; r := None |}]> (heap s);
        stdout := stdout s;
        utils_RedisDict := Some (fresh (dom (heap s))) |}).
Proof. unfold import_RedisDict. by intros ->. Qed.

Lemma import_again (s : state) (o : nat) :
  utils_RedisDict s = Some o → import_RedisDict s = (Ret o, s).
Proof. unfold import_RedisDict. by intros ->. Qed.

Lemma import_loaded (s s1 : state) (d : nat) :
  module_ok s → import_RedisDict s = (Ret d, s1) →
  utils_RedisDict s1 = Some d ∧ is_Some (heap s1 !! d) ∧ store s1 = store s.
Proof.
  unfold module_ok. intros Hok. destruct (utils_RedisDict s) as [o|] eqn:E.
  - rewrite (import_again s o E). by intros [= <- <-].
  - rewrite (import_first s E). intros [= <- <-]. simpl.
    by rewrite lookup_insert_eq.
Qed.

(** * The claims *)

(** C1. Values put on an empty queue, in any number and through any handles
    that name the same key of the same store, come back from as many
    successful [get] calls in the order they were put, whichever handle pops
    and whether it waits or not; the queue is empty again afterwards. *)
Theorem fifo_put_then_get (ep : string * Z) (pw : option string) (k : string)
    (s : state) (pushes : list (RedisQueue.t * pickle.value))
    (pops : list (RedisQueue.t * bool * option Z)) :
  queue_holds s ep pw k [] →
  Forall (λ p, queue_handle ep pw k p.1 ∧ pickle.serializable p.2) pushes →
  Forall (λ p, queue_handle ep pw k p.1.1
               ∧ (p.1.2 = true → 0 ≤ default 0 p.2)) pops →
  length pops = length pushes →
  ∃ ns s1 s2, put_all pushes s = (Ret ns, s1)
              ∧ get_all pops s1 = (Ret pushes.*2, s2)
              ∧ queue_holds s2 ep pw k [].
Proof.
  intros Hq Hpushes Hpops Hlen.
  destruct (put_all_holds ep pw k pushes s [] Hq Hpushes) as (ns & s1 & Hput & Hq1).
  rewrite app_nil_r in Hq1.
  destruct (get_all_holds ep pw k pushes.*2 pops s1 [] Hq1) as (s2 & Hget & Hq2).
  - apply Forall_fmap. eapply Forall_impl; [exact Hpushes |]. by intros p [_ Hp].
  - done.
  - by rewrite length_fmap.
  - by exists ns, s1, s2.
Qed.

Lemma fifo_put_then_get_witness :
  ∃ ns s1 s2,
    put_all [(jobs, task 1); (jobs', task 2); (jobs, task 3)] fresh_process
    = (Ret ns, s1)
    ∧ get_all [(jobs', false, None); (jobs, true, Some 5); (jobs, true, None)] s1
      = (Ret [task 1; task 2; task 3], s2)
    ∧ queue_holds s2 ("localhost"%string, 6379) None "jobs" [].
Proof.
  apply (fifo_put_then_get ("localhost"%string, 6379) None "jobs" fresh_process
           [(jobs, task 1); (jobs', task 2); (jobs, task 3)]
           [(jobs', false, None); (jobs, true, Some 5); (jobs, true, None)]).
  - exists {| redis.requirepass := None; redis.keyspace := ∅ |}.
    repeat split; reflexivity.
  - repeat constructor; reflexivity.
  - repeat constructor; simpl; intros; lia.
  - reflexivity.
Defined.

(** C2. Every value the codec supports (no live resource inside) is encoded,
    and decoding the encoding gives the value back:
    [loads (dumps v) = v]. *)
Theorem codec_round_trip (v : pickle.value) :
  pickle.serializable v →
  ∃ data, pickle.dumps v = Ret data ∧ pickle.loads (Some data) = Ret v.
Proof.
  intros Hv. exists (pickle.codec_version :: pickle.enc v).
  pose proof (dumps_serializable v Hv) as Hd. split; [done |].
  by apply loads_dumps.
Qed.

Lemma codec_round_trip_witness :
  ∃ data, pickle.dumps (pickle.VDict [(pickle.VStr "hi",
                          pickle.VList [pickle.VInt 1; pickle.VInt (-2);
                                        pickle.VNone; pickle.VBool true])])
          = Ret data
          ∧ pickle.loads (Some data)
            = Ret (pickle.VDict [(pickle.VStr "hi",
                     pickle.VList [pickle.VInt 1; pickle.VInt (-2);
                                   pickle.VNone; pickle.VBool true])]).
Proof. apply codec_round_trip. exact I. Defined.

(** C3, as the code has it. A [get] that does not wait, on an empty queue,
    pops once, gets [None] from the store and fails in the decoder with
    [TypeError]; the process and the store are as they were. *)
Theorem get_nonblocking_empty (ep : string * Z) (pw : option string) (k : string)
    (h : RedisQueue.t) (timeout : option Z) (s : state) :
  queue_handle ep pw k h → queue_holds s ep pw k [] →
  RedisQueue.get h false timeout s = (Raise TypeError, s).
Proof. intros Hh Hq. by rewrite (get_empty ep pw k h false timeout s Hh Hq). Qed.

Lemma get_nonblocking_empty_witness :
  RedisQueue.get jobs false None fresh_process = (Raise TypeError, fresh_process).
Proof.
  apply (get_nonblocking_empty ("localhost"%string, 6379) None "jobs").
  - repeat split; reflexivity.
  - exists {| redis.requirepass := None; redis.keyspace := ∅ |}.
    repeat split; reflexivity.
Defined.

(** C3 as stated fails: on the empty queue of a fresh store the error is not
    [QueueEmptyError]. *)
Lemma get_nonblocking_empty_not_QueueEmptyError :
  queue_holds fresh_process ("localhost"%string, 6379) None "jobs" []
  ∧ (RedisQueue.get jobs false None fresh_process).1 ≠ Raise QueueEmptyError.
Proof.
  split.
  - exists {| redis.requirepass := None; redis.keyspace := ∅ |}.
    repeat split; reflexivity.
  - vm_compute. discriminate.
Qed.

(** C4, as the code has it. A [get] that waits with a time limit [T > 0], on
    a queue that stays empty, gets [None] from the store when the limit runs
    out and fails with [TypeError] on subscripting it; the process and the
    store are as they were. *)
Theorem get_blocking_empty (ep : string * Z) (pw : option string) (k : string)
    (h : RedisQueue.t) (T : Z) (s : state) :
  queue_handle ep pw k h → queue_holds s ep pw k [] → 0 < T →
  RedisQueue.get h true (Some T) s = (Raise TypeError, s).
Proof.
  intros Hh Hq HT. rewrite (get_empty ep pw k h true (Some T) s Hh Hq). simpl.
  destruct (Z.ltb_spec T 0); [lia |]. destruct (Z.eqb_spec T 0); [lia | done].
Qed.

Lemma get_blocking_empty_witness :
  RedisQueue.get jobs true (Some 5) fresh_process = (Raise TypeError, fresh_process).
Proof.
  apply (get_blocking_empty ("localhost"%string, 6379) None "jobs").
  - repeat split; reflexivity.
  - exists {| redis.requirepass := None; redis.keyspace := ∅ |}.
    repeat split; reflexivity.
  - lia.
Defined.

(** C4 as stated fails: with a limit of 5 on the empty queue of a fresh store
    the error is not [QueueTimeoutError]. *)
Lemma get_blocking_empty_not_QueueTimeoutError :
  queue_holds fresh_process ("localhost"%string, 6379) None "jobs" []
  ∧ (RedisQueue.get jobs true (Some 5) fresh_process).1 ≠ Raise QueueTimeoutError.
Proof.
  split.
  - exists {| redis.requirepass := None; redis.keyspace := ∅ |}.
    repeat split; reflexivity.
  - vm_compute. discriminate.
Qed.

(** C5, as the code has it. Before [set_db] the instance has no attribute
    [r], and every operation fails, none falling back on a default: [get]
    and [get_dict] raise [AttributeError]; [set] encodes first, raising the
    codec's error for a value it cannot encode and [AttributeError]
    otherwise. Nothing is written or printed. *)
Theorem unconfigured_fails (self : nat) (o : RedisDict_attrs) (field : string)
    (v : pickle.value) (s : state) :
  heap s !! self = Some o → r o = None →
  RedisDict.get self field s = (Raise AttributeError, s)
  ∧ RedisDict.get_dict self s = (Raise AttributeError, s)
  ∧ RedisDict.set self field v s
    = (if pickle.serializable v then Raise AttributeError else Raise EncodeError, s).
Proof.
  intros Ho Hr.
  assert (deref self s = (Ret o, s)) as Hd by (unfold deref; by rewrite Ho).
  assert (getattr_r o s = (Raise AttributeError, s)) as Ha
    by (unfold getattr_r; by rewrite Hr).
  repeat split.
  - unfold RedisDict.get. rewrite (bind_ret _ _ s s o Hd).
    by apply bind_raise.
  - unfold RedisDict.get_dict. rewrite (bind_ret _ _ s s o Hd).
    by apply bind_raise.
  - unfold RedisDict.set. rewrite (bind_ret _ _ s s o Hd).
    unfold pickle.dumps. destruct (pickle.serializable v).
    + rewrite (bind_ret _ _ s s (pickle.codec_version :: pickle.enc v)) by done.
      by apply bind_raise.
    + by apply bind_raise.
Qed.

Lemma unconfigured_fails_witness :
  RedisDict.get 0 "x" loaded_process = (Raise AttributeError, loaded_process)
  ∧ RedisDict.get_dict 0 loaded_process = (Raise AttributeError, loaded_process)
  ∧ RedisDict.set 0 "x" (task 1) loaded_process
    = (Raise AttributeError, loaded_process).
Proof.
  apply (unconfigured_fails 0 {| exp_key := None; r := None |} "x" (task 1)
           loaded_process); reflexivity.
Defined.

(** C5 as stated fails: on the instance of a process that has only imported
    the module, the error of [get] is not [NotConfiguredError]. *)
Lemma unconfigured_not_NotConfiguredError :
  RedisDict.is_set 0 loaded_process = (Ret false, loaded_process)
  ∧ (RedisDict.get 0 "x" loaded_process).1 ≠ Raise NotConfiguredError.
Proof. split; [reflexivity |]. vm_compute. discriminate. Qed.

(** C6. On a configured dictionary [get] asks the store whether the field
    exists. For a field that is not there it prints one line naming the field
    and the namespace and returns [None], raising nothing and leaving store
    and objects alone; for a field that is there it returns what the decoder
    makes of the stored payload, and changes nothing. *)
Theorem get_field_absent_or_present (self : nat) (field key : string)
    (c : redis.Redis) (h : gmap string bytes) (s : state) :
  configured s self key c → hash_holds s c key h →
  RedisDict.get self field s
  = match h !! field with
    | Some payload => (pickle.loads (Some payload), s)
    | None =>
        (Ret pickle.VNone,
         {| store := store s; heap := heap s;
            stdout := stdout s ++ [missing_field_line field (Some key)];
            utils_RedisDict := utils_RedisDict s |})
    end.
Proof.
  intros Hcfg Hh. destruct (h !! field) as [payload|] eqn:Hf.
  - by apply (get_present self field payload key c s h).
  - by apply (get_absent self field key c s h).
Qed.

Lemma get_field_absent_or_present_witness :
  RedisDict.get 0 "x" configured_process
  = (Ret pickle.VNone,
     {| store := store configured_process; heap := heap configured_process;
        stdout := ["x does not exist in Redis with the experiment exp"%string];
        utils_RedisDict := Some 0%nat |}).
Proof.
  refine (get_field_absent_or_present 0 "x" "exp" (dict_client None None) ∅
            configured_process _ _).
  - reflexivity.
  - exists {| redis.requirepass := None; redis.keyspace := ∅ |}.
    repeat split; reflexivity.
Defined.

Lemma payload_is_not_the_value (v : pickle.value) :
  pickle.VBytes (payload v) ≠ v.
Proof.
  destruct v as [| | | |bs| | |]; try discriminate. intros [= Hbs].
  apply (f_equal length) in Hbs. unfold payload in Hbs.
  cbn [pickle.enc length] in Hbs. unfold pickle.sized in Hbs.
  rewrite length_app in Hbs. lia.
Qed.

(** C7, where the code departs from it. [get_without_pop] changes nothing
    and returns [None] on an empty queue, but on a queue that holds a value
    it returns the payload at the tail as it is stored, the bytes [put]
    wrote, and not the value: those bytes are a different object from the
    value, which the [get] that follows returns by decoding the same
    payload. *)
Theorem peek_returns_undecoded_payload (ep : string * Z) (pw : option string)
    (k : string) (h : RedisQueue.t) (v : pickle.value) (s : state) :
  queue_handle ep pw k h → queue_holds s ep pw k [] → pickle.serializable v →
  RedisQueue.get_without_pop h s = (Ret None, s)
  ∧ ∃ s1 s2,
      RedisQueue.put h v s = (Ret 1, s1)
      ∧ RedisQueue.get_without_pop h s1 = (Ret (Some (payload v)), s1)
      ∧ pickle.VBytes (payload v) ≠ v
      ∧ RedisQueue.get h false None s1 = (Ret v, s2).
Proof.
  intros Hh Hq Hv. split; [by apply (get_without_pop_holds ep pw k h s []) |].
  destruct (put_holds ep pw k h v (payload v) s [] Hh Hq (dumps_serializable v Hv))
    as (s1 & Hput & Hq1 & _).
  change [payload v] with ([] ++ [payload v]) in Hq1.
  destruct (get_holds ep pw k h false None s1 [] (payload v) Hh Hq1)
    as (s2 & Hget & _); [done |].
  rewrite (loads_dumps v (payload v) (dumps_serializable v Hv)) in Hget.
  exists s1, s2. split; [done |]. split; [| split; [apply payload_is_not_the_value | done]].
  rewrite (get_without_pop_holds ep pw k h s1 _ Hh Hq1). by rewrite last_snoc.
Qed.

Lemma peek_returns_undecoded_payload_witness :
  RedisQueue.get_without_pop jobs fresh_process = (Ret None, fresh_process)
  ∧ ∃ s1 s2,
      RedisQueue.put jobs (task 1) fresh_process = (Ret 1, s1)
      ∧ RedisQueue.get_without_pop jobs s1 = (Ret (Some (payload (task 1))), s1)
      ∧ pickle.VBytes (payload (task 1)) ≠ task 1
      ∧ RedisQueue.get jobs false None s1 = (Ret (task 1), s2).
Proof.
  apply (peek_returns_undecoded_payload ("localhost"%string, 6379) None "jobs"
           jobs (task 1) fresh_process).
  - repeat split; reflexivity.
  - exists {| redis.requirepass := None; redis.keyspace := ∅ |}.
    repeat split; reflexivity.
  - exact I.
Defined.

(** C8. [put] and [set] encode before they touch the store: when the value
    cannot be encoded the call ends with the codec's error and the state,
    store included, is the one it started from. *)
Theorem encode_failure_writes_nothing (h : RedisQueue.t) (self : nat)
    (field : string) (v : pickle.value) (e : exn) (s : state) :
  pickle.dumps v = Raise e → is_Some (heap s !! self) →
  RedisQueue.put h v s = (Raise e, s)
  ∧ RedisDict.set self field v s = (Raise e, s).
Proof.
  intros Hd [o Ho]. split.
  - unfold RedisQueue.put. apply bind_raise. unfold lift. by rewrite Hd.
  - unfold RedisDict.set.
    rewrite (bind_ret _ _ s s o) by (unfold deref; by rewrite Ho).
    apply bind_raise. unfold lift. by rewrite Hd.
Qed.

Lemma encode_failure_writes_nothing_witness :
  RedisQueue.put jobs open_log configured_process
  = (Raise EncodeError, configured_process)
  ∧ RedisDict.set 0 "log" open_log configured_process
    = (Raise EncodeError, configured_process).
Proof.
  apply (encode_failure_writes_nothing jobs 0 "log" open_log EncodeError
           configured_process).
  - reflexivity.
  - eexists. reflexivity.
Defined.

(** C9. Two acquisitions of [RedisDict] in one process give the same
    reference, and the second creates nothing. What one handle configures
    and writes, the other sees at once: after [set_db] and [set] through the
    first, [is_set] through the second is true and [get] through the second
    returns the value written. *)
Theorem singleton_shares_instance (s s1 s2 : state) (d1 d2 : nat) :
  module_ok s →
  import_RedisDict s = (Ret d1, s1) → import_RedisDict s1 = (Ret d2, s2) →
  d1 = d2 ∧ s2 = s1
  ∧ ∀ (key field : string) (host password : option string)
      (v : pickle.value) (h : gmap string bytes),
      hash_holds s1 (dict_client host password) key h →
      pickle.serializable v →
      ∃ s3 s4,
        RedisDict.set_db d1 key host password s1 = (Ret tt, s3)
        ∧ RedisDict.is_set d2 s3 = (Ret true, s3)
        ∧ RedisDict.set d1 field v s3 = (Ret tt, s4)
        ∧ RedisDict.get d2 field s4 = (Ret v, s4).
Proof.
  intros Hok H1 H2.
  destruct (import_loaded s s1 d1 Hok H1) as (Hmod & Hlive & Hstore).
  rewrite (import_again s1 d1 Hmod) in H2. injection H2 as <- <-.
  do 2 (split; [done |]).
  intros key field host password v h Hh Hv.
  destruct (set_db_configures d1 key host password s1 Hlive)
    as (s3 & Hset_db & Hcfg & Hst3 & _).
  assert (hash_holds s3 (dict_client host password) key h) as Hh3.
  { destruct Hh as (srv & ? & ? & ?). exists srv. by rewrite Hst3. }
  destruct (set_holds d1 field v _ key _ s3 h Hcfg Hh3 (dumps_serializable v Hv))
    as (s4 & Hset & Hh4 & Hheap4 & _).
  exists s3, s4. repeat split; [done | | done |].
  - unfold RedisDict.is_set.
    rewrite (bind_ret _ _ s3 s3 _) by (unfold deref; by rewrite Hcfg). done.
  - assert (configured s4 d1 key (dict_client host password)) as Hcfg4
      by (unfold configured; by rewrite Hheap4).
    rewrite (get_present d1 field _ key _ s4 _ Hcfg4 Hh4 (lookup_insert_eq _ _ _)).
    by rewrite (loads_dumps v _ (dumps_serializable v Hv)).
Qed.

Lemma singleton_shares_instance_witness :
  (0%nat = 0%nat ∧ loaded_process = loaded_process)
  ∧ ∃ s3 s4,
      RedisDict.set_db 0 "exp" None None loaded_process = (Ret tt, s3)
      ∧ RedisDict.is_set 0 s3 = (Ret true, s3)
      ∧ RedisDict.set 0 "x" (task 1) s3 = (Ret tt, s4)
      ∧ RedisDict.get 0 "x" s4 = (Ret (task 1), s4).
Proof.
  destruct (singleton_shares_instance fresh_process loaded_process loaded_process
              0 0 I eq_refl eq_refl) as (Hd & Hs & Hrw).
  split; [by split |].
  apply (Hrw "exp"%string "x"%string None None (task 1) ∅).
  - exists {| redis.requirepass := None; redis.keyspace := ∅ |}.
    repeat split; reflexivity.
  - exact I.
Defined.

(** C10. [put] returns the length of the list after the insertion, one more
    than before, which is what [size] reports right after the call. *)
Theorem put_returns_new_length (ep : string * Z) (pw : option string) (k : string)
    (h : RedisQueue.t) (v : pickle.value) (l : list bytes) (s : state) :
  queue_handle ep pw k h → queue_holds s ep pw k l → pickle.serializable v →
  ∃ s', RedisQueue.put h v s = (Ret (Z.of_nat (length l) + 1), s')
        ∧ RedisQueue.size h s' = (Ret (Z.of_nat (length l) + 1), s')
        ∧ queue_holds s' ep pw k (payload v :: l).
Proof.
  intros Hh Hq Hv.
  destruct (put_holds ep pw k h v _ s l Hh Hq (dumps_serializable v Hv))
    as (s' & Hput & Hq' & _).
  exists s'. replace (Z.of_nat (length l) + 1) with (Z.of_nat (S (length l))) by lia.
  split; [done |]. split; [| done].
  by rewrite (size_holds ep pw k h s' _ Hh Hq').
Qed.

Lemma put_returns_new_length_witness :
  ∃ s', RedisQueue.put jobs (task 1) fresh_process = (Ret 1, s')
        ∧ RedisQueue.size jobs s' = (Ret 1, s')
        ∧ queue_holds s' ("localhost"%string, 6379) None "jobs"
            [payload (task 1)].
Proof.
  apply (put_returns_new_length ("localhost"%string, 6379) None "jobs" jobs
           (task 1) [] fresh_process).
  - repeat split; reflexivity.
  - exists {| redis.requirepass := None; redis.keyspace := ∅ |}.
    repeat split; reflexivity.
  - exact I.
Defined.

(** * Further properties of the code *)

(** ** Store commands, with the state they leave *)

Lemma call_command {A : Type} (c : redis.Redis)
    (f : gmap string redis.entry → outcome A * gmap string redis.entry)
    (s : state) (srv : redis.server) (res : outcome A)
    (ks : gmap string redis.entry) :
  store s !! endpoint c = Some srv →
  redis.credential c = redis.requirepass srv →
  f (redis.keyspace srv) = (res, ks) →
  call (redis.command c f) s = (res, with_keyspace (endpoint c) ks s).
Proof.
  intros Hs Hc Hf. unfold call, with_keyspace.
  rewrite (command_write c f (store s) srv res ks Hs Hc Hf).
  do 2 f_equal. apply map_eq. intros ep.
  destruct (decide (endpoint c = ep)) as [<-|Hne].
  - by rewrite lookup_insert_eq, lookup_alter_eq, Hs.
  - by rewrite lookup_insert_ne, lookup_alter_ne.
Qed.

Lemma with_keyspace_same (ep : string * Z) (s : state) (srv : redis.server) :
  store s !! ep = Some srv → with_keyspace ep (redis.keyspace srv) s = s.
Proof.
  intros Hs. unfold with_keyspace.
  replace (alter _ ep (store s)) with (store s); [apply with_store_id |].
  apply map_eq. intros ep'. destruct (decide (ep = ep')) as [<-|Hne].
  - rewrite lookup_alter_eq, Hs. by destruct srv.
  - by rewrite lookup_alter_ne.
Qed.

Lemma connect_down (s : state) (c : redis.Redis) :
  unreachable s c → redis.connect c (store s) = Raise StoreUnavailableError.
Proof.
  unfold unreachable, redis.connect, endpoint. intros Hdown.
  destruct (store s !! (redis.host c, redis.port c)) as [srv|] eqn:E; [| done].
  rewrite decide_False; [done |]. by apply Hdown.
Qed.

Lemma call_down {A : Type} (c : redis.Redis)
    (f : gmap string redis.entry → outcome A * gmap string redis.entry)
    (s : state) :
  unreachable s c →
  call (redis.command c f) s = (Raise StoreUnavailableError, s).
Proof.
  intros Hdown. unfold call, redis.command. rewrite (connect_down s c Hdown).
  by rewrite with_store_id.
Qed.

(** ** More on the queue *)

Lemma put_state (h : RedisQueue.t) (v : pickle.value) (b : bytes) (s : state)
    (srv : redis.server) (l : list bytes) :
  store s !! endpoint (RedisQueue.r h) = Some srv →
  redis.credential (RedisQueue.r h) = redis.requirepass srv →
  redis.list_at (RedisQueue.key h) (redis.keyspace srv) = Some l →
  pickle.dumps v = Ret b →
  RedisQueue.put h v s
  = (Ret (Z.of_nat (S (length l))),
     with_keyspace (endpoint (RedisQueue.r h))
       (<[RedisQueue.key h := redis.RList (b :: l)]> (redis.keyspace srv)) s).
Proof.
  intros Hs Hc Hl Hd. unfold RedisQueue.put.
  rewrite (bind_ret _ _ s s b) by (unfold lift; by rewrite Hd).
  unfold redis.lpush. apply (call_command _ _ s srv); [done ..|].
  by rewrite Hl.
Qed.

Lemma get_state (h : RedisQueue.t) (is_blocking : bool) (timeout : option Z)
    (s : state) (srv : redis.server) (l : list bytes) (b : bytes) :
  store s !! endpoint (RedisQueue.r h) = Some srv →
  redis.credential (RedisQueue.r h) = redis.requirepass srv →
  redis.list_at (RedisQueue.key h) (redis.keyspace srv) = Some (l ++ [b]) →
  (is_blocking = true → 0 ≤ default 0 timeout) →
  RedisQueue.get h is_blocking timeout s
  = (pickle.loads (Some b),
     with_keyspace (endpoint (RedisQueue.r h))
       (redis.put_list (RedisQueue.key h) l (redis.keyspace srv)) s).
Proof.
  intros Hs Hc Hl Ht. unfold RedisQueue.get.
  set (s' := with_keyspace _ _ s). destruct is_blocking.
  - rewrite (bind_ret _ _ s s' (Some b)); [apply lift_ret |].
    rewrite (bind_ret _ _ s s' (Some (RedisQueue.key h, b))); [done |].
    unfold redis.brpop. apply (call_command _ _ s srv); [done ..|].
    cbn zeta. destruct (Z.ltb_spec (default 0 timeout) 0);
      [specialize (Ht eq_refl); lia |].
    by rewrite Hl, last_snoc, removelast_last.
  - rewrite (bind_ret _ _ s s' (Some b)); [apply lift_ret |].
    unfold redis.rpop. apply (call_command _ _ s srv); [done ..|].
    by rewrite Hl, last_snoc, removelast_last.
Qed.

(** A list of the store other than the one just written holds what it
    held. *)
Lemma queue_holds_frame (s : state) (ep ep' : string * Z) (pw' : option string)
    (k' : string) (l' : list bytes) (srv : redis.server)
    (ks : gmap string redis.entry) :
  store s !! ep = Some srv →
  (ep = ep' → redis.list_at k' ks = redis.list_at k' (redis.keyspace srv)) →
  queue_holds s ep' pw' k' l' →
  queue_holds (with_keyspace ep ks s) ep' pw' k' l'.
Proof.
  intros Hs Hsame (srv' & Hs' & Hpw' & Hl'). unfold queue_holds, with_keyspace.
  simpl. destruct (decide (ep = ep')) as [<-|Hne].
  - rewrite lookup_alter_eq, Hs. simplify_eq. eexists. split; [done |].
    simpl. split; [done |]. by rewrite Hsame.
  - rewrite lookup_alter_ne by done. by exists srv'.
Qed.

Lemma list_at_insert_ne (k k' : string) (l : list bytes)
    (ks : gmap string redis.entry) :
  k ≠ k' → redis.list_at k' (<[k := redis.RList l]> ks) = redis.list_at k' ks.
Proof. intros Hne. unfold redis.list_at. by rewrite lookup_insert_ne. Qed.

Lemma list_at_put_list_ne (k k' : string) (l : list bytes)
    (ks : gmap string redis.entry) :
  k ≠ k' → redis.list_at k' (redis.put_list k l ks) = redis.list_at k' ks.
Proof.
  intros Hne. unfold redis.list_at, redis.put_list. destruct l.
  - by rewrite lookup_delete_ne.
  - by rewrite lookup_insert_ne.
Qed.

(** The replies of a run of puts count up from the length the queue had. *)
Lemma put_all_counts (ep : string * Z) (pw : option string) (k : string)
    (pushes : list (RedisQueue.t * pickle.value)) :
  ∀ (s : state) (l : list bytes),
    queue_holds s ep pw k l →
    Forall (λ p, queue_handle ep pw k p.1 ∧ pickle.serializable p.2) pushes →
    ∃ s', put_all pushes s
          = (Ret ((λ i, Z.of_nat (length l + i)) <$> seq 1 (length pushes)), s')
          ∧ queue_holds s' ep pw k (rev (payload <$> pushes.*2) ++ l).
Proof.
  induction pushes as [|[h v] pushes IH]; intros s l Hq Hall.
  - by exists s.
  - apply Forall_cons in Hall as [[Hh Hv] Hall]. simpl in Hh, Hv.
    destruct (put_holds ep pw k h v (payload v) s l Hh Hq
                (dumps_serializable v Hv)) as (s1 & Hput & Hq1 & _).
    destruct (IH s1 _ Hq1 Hall) as (s2 & Hrest & Hq2).
    exists s2. split.
    + cbn [put_all]. rewrite (bind_ret _ _ s s1 _ Hput).
      rewrite (bind_ret _ _ s1 s2 _ Hrest). unfold ret. do 2 f_equal.
      cbn [length seq fmap list_fmap]. f_equal; [f_equal; lia |].
      rewrite <- (fmap_S_seq 1), <- list_fmap_compose.
      apply list_fmap_ext. intros _ i _. simpl. f_equal. lia.
    + cbn [fmap list_fmap rev] in *. by rewrite <- app_assoc.
Qed.

(** X1. A put does not overtake: with elements waiting, the next [get],
    waiting or not and through any handle on the queue, still returns the one
    at the tail, and the new value stays behind the others. *)
Theorem put_does_not_overtake (ep : string * Z) (pw : option string) (k : string)
    (hp hg : RedisQueue.t) (v : pickle.value) (is_blocking : bool)
    (timeout : option Z) (s : state) (l : list bytes) (old : bytes) :
  queue_handle ep pw k hp → queue_handle ep pw k hg →
  queue_holds s ep pw k (l ++ [old]) → pickle.serializable v →
  (is_blocking = true → 0 ≤ default 0 timeout) →
  ∃ s1 s2,
    RedisQueue.put hp v s = (Ret (Z.of_nat (length l) + 2), s1)
    ∧ RedisQueue.get hg is_blocking timeout s1 = (pickle.loads (Some old), s2)
    ∧ queue_holds s2 ep pw k (payload v :: l).
Proof.
  intros Hp Hg Hq Hv Ht.
  destruct (put_holds ep pw k hp v (payload v) s _ Hp Hq (dumps_serializable v Hv))
    as (s1 & Hput & Hq1 & _).
  rewrite app_comm_cons in Hq1.
  destruct (get_holds ep pw k hg is_blocking timeout s1 _ _ Hg Hq1 Ht)
    as (s2 & Hget & Hq2 & _).
  exists s1, s2. split; [| done]. rewrite Hput. do 2 f_equal.
  rewrite length_app. simpl. lia.
Qed.

Lemma put_does_not_overtake_witness :
  ∃ s1 s2,
    RedisQueue.put jobs' (task 2) one_job = (Ret 2, s1)
    ∧ RedisQueue.get jobs true (Some 3) s1
      = (pickle.loads (Some (payload (task 1))), s2)
    ∧ queue_holds s2 local None "jobs" [payload (task 2)].
Proof.
  refine (put_does_not_overtake local None "jobs" jobs' jobs (task 2) true (Some 3)
            one_job [] (payload (task 1)) _ _ _ _ _).
  - repeat split; reflexivity.
  - repeat split; reflexivity.
  - eexists. repeat split; reflexivity.
  - exact I.
  - simpl. lia.
Defined.

(** X2. After any run of puts, [size] and [qsize] report the elements that
    were there plus the values put, each put having returned the running
    count, and [is_empty] is true only if the queue was empty and nothing was
    put. *)
Theorem size_after_puts (ep : string * Z) (pw : option string) (k : string)
    (h : RedisQueue.t) (pushes : list (RedisQueue.t * pickle.value))
    (s : state) (l : list bytes) :
  queue_handle ep pw k h → queue_holds s ep pw k l →
  Forall (λ p, queue_handle ep pw k p.1 ∧ pickle.serializable p.2) pushes →
  ∃ s',
    put_all pushes s
    = (Ret ((λ i, Z.of_nat (length l + i)) <$> seq 1 (length pushes)), s')
    ∧ RedisQueue.size h s' = (Ret (Z.of_nat (length l + length pushes)), s')
    ∧ RedisQueue.qsize h s' = (Ret (Z.of_nat (length l + length pushes)), s')
    ∧ RedisQueue.is_empty h s'
      = (Ret (bool_decide (l = [] ∧ pushes = [])), s').
Proof.
  intros Hh Hq Hall.
  destruct (put_all_counts ep pw k pushes s l Hq Hall) as (s' & Hput & Hq').
  pose proof (size_holds ep pw k h s' _ Hh Hq') as Hsize.
  rewrite length_app, length_rev, !length_fmap in Hsize.
  replace (length pushes + length l)%nat with (length l + length pushes)%nat
    in Hsize by lia.
  exists s'. repeat split; [done ..|].
  unfold RedisQueue.is_empty. rewrite (bind_ret _ _ s' s' _ Hsize).
  unfold ret. do 2 f_equal.
  case_bool_decide as Hempty.
  - by destruct Hempty as [-> ->].
  - apply Z.eqb_neq. destruct l, pushes; simpl; try lia. by destruct Hempty.
Qed.

Lemma size_after_puts_witness :
  ∃ s',
    put_all [(jobs, task 2); (jobs', task 3)] one_job = (Ret [2; 3], s')
    ∧ RedisQueue.size jobs s' = (Ret 3, s')
    ∧ RedisQueue.qsize jobs s' = (Ret 3, s')
    ∧ RedisQueue.is_empty jobs s' = (Ret false, s').
Proof.
  refine (size_after_puts local None "jobs" jobs [(jobs, task 2); (jobs', task 3)]
            one_job [payload (task 1)] _ _ _).
  - repeat split; reflexivity.
  - eexists. repeat split; reflexivity.
  - repeat constructor; reflexivity.
Defined.

(** X3. On a queue that holds an element, a [get] that waits (with no limit
    or any limit that is not negative) does exactly what a [get] that does
    not wait does: the same result and the same state. *)
Theorem blocking_get_as_nonblocking (ep : string * Z) (pw : option string)
    (k : string) (h : RedisQueue.t) (timeout timeout' : option Z) (s : state)
    (l : list bytes) (b : bytes) :
  queue_handle ep pw k h → queue_holds s ep pw k (l ++ [b]) →
  0 ≤ default 0 timeout →
  RedisQueue.get h true timeout s = RedisQueue.get h false timeout' s.
Proof.
  intros (Hep & Hpw & Hk) (srv & Hs & Hrp & Hl) Ht. subst ep pw k.
  rewrite (get_state h true timeout s srv l b Hs (eq_sym Hrp) Hl (λ _, Ht)).
  by rewrite (get_state h false timeout' s srv l b Hs (eq_sym Hrp) Hl).
Qed.

Lemma blocking_get_as_nonblocking_witness :
  RedisQueue.get jobs true None one_job = RedisQueue.get jobs false (Some 9) one_job.
Proof.
  refine (blocking_get_as_nonblocking local None "jobs" jobs None (Some 9) one_job
            [] (payload (task 1)) _ _ _).
  - repeat split; reflexivity.
  - eexists. repeat split; reflexivity.
  - simpl. lia.
Defined.

(** X4. On an empty queue that nobody fills, a [get] that waits without a
    limit, which is what [timeout=None] and [timeout=0] both ask for, never
    returns. *)
Theorem get_without_limit_blocks (ep : string * Z) (pw : option string)
    (k : string) (h : RedisQueue.t) (s : state) :
  queue_handle ep pw k h → queue_holds s ep pw k [] →
  RedisQueue.get h true None s = (Blocks, s)
  ∧ RedisQueue.get h true (Some 0) s = (Blocks, s).
Proof.
  intros Hh Hq. split.
  - by rewrite (get_empty ep pw k h true None s Hh Hq).
  - by rewrite (get_empty ep pw k h true (Some 0) s Hh Hq).
Qed.

Lemma get_without_limit_blocks_witness :
  RedisQueue.get jobs true None fresh_process = (Blocks, fresh_process)
  ∧ RedisQueue.get jobs true (Some 0) fresh_process = (Blocks, fresh_process).
Proof.
  refine (get_without_limit_blocks local None "jobs" jobs fresh_process _ _).
  - repeat split; reflexivity.
  - eexists. repeat split; reflexivity.
Defined.

(** X5. What [get_without_pop] shows is the stored payload, not the value:
    decoding it gives the result of the [get] that follows, and only that
    [get] takes the element away. *)
Theorem peek_then_get (ep : string * Z) (pw : option string) (k : string)
    (h : RedisQueue.t) (is_blocking : bool) (timeout : option Z) (s : state)
    (l : list bytes) (b : bytes) :
  queue_handle ep pw k h → queue_holds s ep pw k (l ++ [b]) →
  (is_blocking = true → 0 ≤ default 0 timeout) →
  ∃ s',
    RedisQueue.get_without_pop h s = (Ret (Some b), s)
    ∧ RedisQueue.get h is_blocking timeout s = (pickle.loads (Some b), s')
    ∧ queue_holds s' ep pw k l.
Proof.
  intros Hh Hq Ht.
  destruct (get_holds ep pw k h is_blocking timeout s l b Hh Hq Ht)
    as (s' & Hget & Hq' & _).
  exists s'. split; [| done].
  rewrite (get_without_pop_holds ep pw k h s _ Hh Hq). by rewrite last_snoc.
Qed.

Lemma peek_then_get_witness :
  ∃ s',
    RedisQueue.get_without_pop jobs one_job = (Ret (Some (payload (task 1))), one_job)
    ∧ RedisQueue.get jobs false None one_job
      = (pickle.loads (Some (payload (task 1))), s')
    ∧ queue_holds s' local None "jobs" [].
Proof.
  refine (peek_then_get local None "jobs" jobs false None one_job [] _ _ _ _).
  - repeat split; reflexivity.
  - eexists. repeat split; reflexivity.
  - intros [=].
Defined.

(** X6. Queues do not touch each other: a [put] and a [get] on one queue
    leave every other list, of the same store under another key or of
    another store, as it was. *)
Theorem queues_are_isolated (ep ep' : string * Z) (pw pw' : option string)
    (k k' : string) (h : RedisQueue.t) (v : pickle.value) (s : state)
    (l l' : list bytes) :
  queue_handle ep pw k h → queue_holds s ep pw k l →
  queue_holds s ep' pw' k' l' → ep ≠ ep' ∨ k ≠ k' → pickle.serializable v →
  ∃ n s1 o s2,
    RedisQueue.put h v s = (Ret n, s1) ∧ queue_holds s1 ep' pw' k' l'
    ∧ RedisQueue.get h false None s1 = (o, s2) ∧ queue_holds s2 ep' pw' k' l'.
Proof.
  intros (Hep & Hpw & Hk) (srv & Hs & Hrp & Hl) Hq' Hne Hv. subst ep pw k.
  pose proof (put_state h v _ s srv l Hs (eq_sym Hrp) Hl (dumps_serializable v Hv))
    as Hput.
  set (ks1 := <[RedisQueue.key h := redis.RList (payload v :: l)]>
                (redis.keyspace srv)) in *.
  set (s1 := with_keyspace (endpoint (RedisQueue.r h)) ks1 s) in *.
  assert (queue_holds s1 ep' pw' k' l') as Hq1.
  { apply (queue_holds_frame s _ _ _ _ _ srv); [done | | done].
    intros <-. apply list_at_insert_ne. by destruct Hne. }
  assert (store s1 !! endpoint (RedisQueue.r h)
          = Some {| redis.requirepass := redis.requirepass srv;
                    redis.keyspace := ks1 |}) as Hs1.
  { unfold s1, with_keyspace. simpl. by rewrite lookup_alter_eq, Hs. }
  assert (∃ l0 b, payload v :: l = l0 ++ [b]) as (l0 & b & Hsnoc).
  { destruct l as [|x l _] using rev_ind.
    - by exists [], (payload v).
    - by exists (payload v :: l), x. }
  pose proof (get_state h false None s1 _ l0 b Hs1 (eq_sym Hrp)) as Hget.
  simpl in Hget. unfold ks1 in Hget at 1.
  rewrite list_at_insert, Hsnoc in Hget. specialize (Hget eq_refl (λ H, Z.le_refl 0)).
  eexists _, s1, _, _. split; [exact Hput |]. split; [exact Hq1 |].
  split; [exact Hget |].
  apply (queue_holds_frame s1 _ _ _ _ _ _ _ Hs1); [| done].
  intros <-. simpl. apply list_at_put_list_ne. by destruct Hne.
Qed.

Lemma queues_are_isolated_witness :
  ∃ n s1 o s2,
    RedisQueue.put mails (task 7) one_job = (Ret n, s1)
    ∧ queue_holds s1 local None "jobs" [payload (task 1)]
    ∧ RedisQueue.get mails false None s1 = (o, s2)
    ∧ queue_holds s2 local None "jobs" [payload (task 1)].
Proof.
  refine (queues_are_isolated local local None None "mails" "jobs" mails (task 7)
            one_job [] [payload (task 1)] _ _ _ _ _).
  - repeat split; reflexivity.
  - eexists. repeat split; reflexivity.
  - eexists. repeat split; reflexivity.
  - right. discriminate.
  - exact I.
Defined.

(** X7. When no store answers the handle, every queue operation raises
    [StoreUnavailableError], and nothing has changed; a value that cannot be
    encoded still fails in the codec first. *)
Theorem queue_store_unavailable (h : RedisQueue.t) (v : pickle.value)
    (is_blocking : bool) (timeout : option Z) (s : state) :
  unreachable s (RedisQueue.r h) →
  RedisQueue.size h s = (Raise StoreUnavailableError, s)
  ∧ RedisQueue.is_empty h s = (Raise StoreUnavailableError, s)
  ∧ RedisQueue.put h v s
    = (if pickle.serializable v then Raise StoreUnavailableError
       else Raise EncodeError, s)
  ∧ RedisQueue.get h is_blocking timeout s = (Raise StoreUnavailableError, s)
  ∧ RedisQueue.get_without_pop h s = (Raise StoreUnavailableError, s).
Proof.
  intros Hdown.
  assert (RedisQueue.size h s = (Raise StoreUnavailableError, s)) as Hsize
    by apply (call_down _ _ s Hdown).
  assert (RedisQueue.is_empty h s = (Raise StoreUnavailableError, s)) as Hempty
    by apply (bind_raise _ _ s s _ Hsize).
  repeat split; [done | done | | |].
  - unfold RedisQueue.put, pickle.dumps. destruct (pickle.serializable v).
    + rewrite (bind_ret _ _ s s (payload v)) by done.
      apply (call_down _ _ s Hdown).
    + by apply bind_raise.
  - unfold RedisQueue.get. apply bind_raise. destruct is_blocking.
    + apply bind_raise, (call_down _ _ s Hdown).
    + apply (call_down _ _ s Hdown).
  - unfold RedisQueue.get_without_pop. by apply bind_raise.
Qed.

Lemma queue_store_unavailable_witness :
  RedisQueue.size jobs_elsewhere one_job = (Raise StoreUnavailableError, one_job)
  ∧ RedisQueue.is_empty jobs_elsewhere one_job
    = (Raise StoreUnavailableError, one_job)
  ∧ RedisQueue.put jobs_elsewhere (task 2) one_job
    = (Raise StoreUnavailableError, one_job)
  ∧ RedisQueue.get jobs_elsewhere true (Some 2) one_job
    = (Raise StoreUnavailableError, one_job)
  ∧ RedisQueue.get_without_pop jobs_elsewhere one_job
    = (Raise StoreUnavailableError, one_job).
Proof.
  refine (queue_store_unavailable jobs_elsewhere (task 2) true (Some 2) one_job _).
  intros srv Hsrv. vm_compute in Hsrv. discriminate.
Defined.

(** X8. [get] takes the element off the queue before it decodes it: a
    payload the codec rejects is gone from the queue although the call
    raised. *)
Theorem undecodable_element_is_lost (ep : string * Z) (pw : option string)
    (k : string) (h : RedisQueue.t) (is_blocking : bool) (timeout : option Z)
    (s : state) (l : list bytes) (b : bytes) (e : exn) :
  queue_handle ep pw k h → queue_holds s ep pw k (l ++ [b]) →
  (is_blocking = true → 0 ≤ default 0 timeout) →
  pickle.loads (Some b) = Raise e →
  ∃ s',
    RedisQueue.get h is_blocking timeout s = (Raise e, s')
    ∧ queue_holds s' ep pw k l
    ∧ RedisQueue.size h s' = (Ret (Z.of_nat (length l)), s').
Proof.
  intros Hh Hq Ht He.
  destruct (get_holds ep pw k h is_blocking timeout s l b Hh Hq Ht)
    as (s' & Hget & Hq' & _).
  exists s'. rewrite He in Hget. repeat split; [done ..|].
  apply (size_holds ep pw k h s' l Hh Hq').
Qed.

Lemma undecodable_element_is_lost_witness :
  ∃ s',
    RedisQueue.get jobs false None foreign_job = (Raise DecodeError, s')
    ∧ queue_holds s' local None "jobs" []
    ∧ RedisQueue.size jobs s' = (Ret 0, s').
Proof.
  refine (undecodable_element_is_lost local None "jobs" jobs false None foreign_job
            [] [x00; x2a] DecodeError _ _ _ _).
  - repeat split; reflexivity.
  - eexists. repeat split; reflexivity.
  - intros [=].
  - reflexivity.
Defined.

(** ** More on the shared dictionary *)

Lemma keyed_command {A : Type} (c : redis.Redis) (key : string)
    (f : gmap string redis.entry → outcome A * gmap string redis.entry)
    (s : state) (srv : redis.server) (res : outcome A)
    (ks : gmap string redis.entry) :
  store s !! endpoint c = Some srv →
  redis.credential c = redis.requirepass srv →
  f (redis.keyspace srv) = (res, ks) →
  call (redis.keyed c (Some key) (λ _, redis.command c f)) s
  = (res, with_keyspace (endpoint c) ks s).
Proof.
  intros Hs Hc Hf. rewrite <- (call_command c f s srv res ks Hs Hc Hf).
  unfold call, redis.keyed. by rewrite (connect_up c _ srv Hs Hc).
Qed.

Lemma keyed_down {A : Type} (c : redis.Redis) (key : option string)
    (cmd : string → redis.world → outcome A * redis.world) (s : state) :
  unreachable s c →
  call (redis.keyed c key cmd) s = (Raise StoreUnavailableError, s).
Proof.
  intros Hdown. unfold call, redis.keyed. rewrite (connect_down s c Hdown).
  by rewrite with_store_id.
Qed.

Lemma set_state (self : nat) (field : string) (v : pickle.value) (b : bytes)
    (key : string) (c : redis.Redis) (s : state) (srv : redis.server)
    (h : gmap string bytes) :
  configured s self key c →
  store s !! endpoint c = Some srv →
  redis.credential c = redis.requirepass srv →
  redis.hash_at key (redis.keyspace srv) = Some h →
  pickle.dumps v = Ret b →
  RedisDict.set self field v s
  = (Ret tt,
     with_keyspace (endpoint c)
       (<[key := redis.RHash (<[field := b]> h)]> (redis.keyspace srv)) s).
Proof.
  intros Hcfg Hs Hc Hh Hd. unfold RedisDict.set.
  rewrite (bind_ret _ _ s s _) by (unfold deref; by rewrite Hcfg).
  rewrite (bind_ret _ _ s s b) by (unfold lift; by rewrite Hd).
  rewrite (bind_ret _ _ s s c) by done. cbn [exp_key].
  set (s' := with_keyspace _ _ s).
  rewrite (bind_ret _ _ s s' (if h !! field is Some _ then 0 else 1)); [done |].
  unfold redis.hset. apply (keyed_command c key _ s srv); [done ..|].
  by rewrite Hh.
Qed.

(** A hash of the store other than the one just written holds what it
    held. *)
Lemma hash_holds_frame (s : state) (c c' : redis.Redis) (k' : string)
    (h' : gmap string bytes) (srv : redis.server)
    (ks : gmap string redis.entry) :
  store s !! endpoint c = Some srv →
  (endpoint c = endpoint c' →
   redis.hash_at k' ks = redis.hash_at k' (redis.keyspace srv)) →
  hash_holds s c' k' h' →
  hash_holds (with_keyspace (endpoint c) ks s) c' k' h'.
Proof.
  intros Hs Hsame (srv' & Hs' & Hpw' & Hh'). unfold hash_holds, with_keyspace.
  simpl. destruct (decide (endpoint c = endpoint c')) as [Heq|Hne].
  - rewrite <- Heq in *. rewrite lookup_alter_eq, Hs. simplify_eq.
    eexists. split; [done |]. simpl. split; [done |]. by rewrite Hsame.
  - rewrite lookup_alter_ne by done. by exists srv'.
Qed.

Lemma hash_holds_store (s s' : state) (c : redis.Redis) (k : string)
    (h : gmap string bytes) :
  store s' = store s → hash_holds s c k h → hash_holds s' c k h.
Proof. intros Hst (srv & ? & ? & ?). exists srv. by rewrite Hst. Qed.

Lemma hash_at_insert (k : string) (h : gmap string bytes)
    (ks : gmap string redis.entry) :
  redis.hash_at k (<[k := redis.RHash h]> ks) = Some h.
Proof. unfold redis.hash_at. by rewrite lookup_insert_eq. Qed.

Lemma hash_at_insert_ne (k k' : string) (h : gmap string bytes)
    (ks : gmap string redis.entry) :
  k ≠ k' → redis.hash_at k' (<[k := redis.RHash h]> ks) = redis.hash_at k' ks.
Proof. intros Hne. unfold redis.hash_at. by rewrite lookup_insert_ne. Qed.

Lemma configured_heap (s s' : state) (self : nat) (key : string)
    (c : redis.Redis) :
  heap s' = heap s → configured s self key c → configured s' self key c.
Proof. unfold configured. by intros ->. Qed.

(** X9. The last write to a field wins, and the other fields keep their
    payloads: after two [set] calls on one field, [get] returns the second
    value, and [get] of any other field returns what it returned before. *)
Theorem last_write_wins (self : nat) (key field : string) (c : redis.Redis)
    (v1 v2 : pickle.value) (h : gmap string bytes) (s : state) :
  configured s self key c → hash_holds s c key h →
  pickle.serializable v1 → pickle.serializable v2 →
  ∃ s1 s2,
    RedisDict.set self field v1 s = (Ret tt, s1)
    ∧ RedisDict.set self field v2 s1 = (Ret tt, s2)
    ∧ RedisDict.get self field s2 = (Ret v2, s2)
    ∧ ∀ other b, other ≠ field → h !! other = Some b →
        RedisDict.get self other s = (pickle.loads (Some b), s)
        ∧ RedisDict.get self other s2 = (pickle.loads (Some b), s2).
Proof.
  intros Hcfg Hh Hv1 Hv2.
  destruct (set_holds self field v1 _ key c s h Hcfg Hh (dumps_serializable v1 Hv1))
    as (s1 & Hset1 & Hh1 & Hheap1 & _).
  pose proof (configured_heap s s1 self key c Hheap1 Hcfg) as Hcfg1.
  destruct (set_holds self field v2 _ key c s1 _ Hcfg1 Hh1
              (dumps_serializable v2 Hv2)) as (s2 & Hset2 & Hh2 & Hheap2 & _).
  pose proof (configured_heap s1 s2 self key c Hheap2 Hcfg1) as Hcfg2.
  exists s1, s2. repeat split; [done | done | | |].
  - rewrite (get_present self field _ key c s2 _ Hcfg2 Hh2 (lookup_insert_eq _ _ _)).
    by rewrite (loads_dumps v2 _ (dumps_serializable v2 Hv2)).
  - by apply (get_present self other b key c s h).
  - apply (get_present self other b key c s2 _ Hcfg2 Hh2).
    by rewrite !lookup_insert_ne.
Qed.

Lemma last_write_wins_witness :
  ∃ s1 s2,
    RedisDict.set 0 "lr" (task 1) (exp_with {[ "seed"%string := payload (task 9) ]})
    = (Ret tt, s1)
    ∧ RedisDict.set 0 "lr" (task 2) s1 = (Ret tt, s2)
    ∧ RedisDict.get 0 "lr" s2 = (Ret (task 2), s2)
    ∧ ∀ other b, other ≠ "lr"%string →
        ({[ "seed"%string := payload (task 9) ]} : gmap string bytes) !! other
        = Some b →
        RedisDict.get 0 other (exp_with {[ "seed"%string := payload (task 9) ]})
        = (pickle.loads (Some b), exp_with {[ "seed"%string := payload (task 9) ]})
        ∧ RedisDict.get 0 other s2 = (pickle.loads (Some b), s2).
Proof.
  refine (last_write_wins 0 "exp" "lr" (dict_client None None) (task 1) (task 2)
            {[ "seed"%string := payload (task 9) ]}
            (exp_with {[ "seed"%string := payload (task 9) ]}) _ _ _ _).
  - reflexivity.
  - eexists. repeat split; reflexivity.
  - exact I.
  - exact I.
Defined.

Lemma get_dict_loop_payloads (vs : list (string * pickle.value)) :
  ∀ (acc : gmap string pickle.value) (s : state),
    Forall (λ kv, pickle.serializable kv.2) vs →
    RedisDict.get_dict_loop (prod_map id payload <$> vs) acc s
    = (Ret (foldl (λ a kv, <[kv.1 := kv.2]> a) acc vs), s).
Proof.
  induction vs as [|[f v] vs IH]; intros acc s Hall; [done |].
  apply Forall_cons in Hall as [Hv Hall]. simpl in Hv.
  cbn [fmap list_fmap prod_map RedisDict.get_dict_loop fst snd id foldl].
  rewrite (bind_ret _ _ s s v).
  - by apply IH.
  - unfold lift. by rewrite (loads_dumps v (payload v) (dumps_serializable v Hv)).
Qed.

Lemma foldl_insert_to_map {A : Type} (vs : list (string * A)) :
  NoDup vs.*1 →
  foldl (λ a kv, <[kv.1 := kv.2]> a) (∅ : gmap string A) vs = list_to_map vs.
Proof.
  induction vs as [|[f v] vs IH] using rev_ind; intros Hnd; [done |].
  rewrite fmap_app in Hnd. apply NoDup_app in Hnd as (Hnd & Hfresh & _).
  rewrite foldl_app. simpl. rewrite (IH Hnd), list_to_map_snoc; [done |].
  intros Hin. apply (Hfresh f Hin). simpl. by left.
Qed.

Lemma loads_outcome (b : bytes) :
  (∃ v, pickle.loads (Some b) = Ret v) ∨ pickle.loads (Some b) = Raise DecodeError.
Proof.
  unfold pickle.loads, pickle.decode. destruct b as [|ver body]; [by right |].
  destruct (Byte.eqb ver pickle.codec_version); [| by right].
  destruct (pickle.dec (S (length body)) body) as [[v [|]]|]; eauto.
Qed.

Lemma get_dict_loop_raises (items : list (string * bytes)) :
  ∀ (acc : gmap string pickle.value) (s : state),
    Exists (λ kv, pickle.loads (Some kv.2) = Raise DecodeError) items →
    RedisDict.get_dict_loop items acc s = (Raise DecodeError, s).
Proof.
  induction items as [|[f b] items IH]; intros acc s Hex.
  - by apply Exists_nil in Hex.
  - cbn [RedisDict.get_dict_loop].
    destruct (loads_outcome b) as [[v Hv]|Hbad].
    + rewrite (bind_ret _ _ s s v) by (unfold lift; by rewrite Hv).
      apply IH. apply Exists_cons in Hex as [Hhead|Htail]; [| done].
      cbn [snd] in Hhead. congruence.
    + apply bind_raise. unfold lift. by rewrite Hbad.
Qed.

Lemma get_dict_reads (self : nat) (key : string) (c : redis.Redis) (s : state)
    (h : gmap string bytes) :
  configured s self key c → hash_holds s c key h →
  RedisDict.get_dict self s = RedisDict.get_dict_loop (map_to_list h) ∅ s.
Proof.
  intros Hcfg Hh. unfold RedisDict.get_dict.
  rewrite (bind_ret _ _ s s _) by (unfold deref; by rewrite Hcfg).
  rewrite (bind_ret _ _ s s c) by done. cbn [exp_key].
  rewrite (bind_ret _ _ s s h); [done |].
  unfold redis.hgetall. apply (keyed_read c key _ s h _ Hh). by intros ks ->.
Qed.

(** X10. [get_dict] is the dictionary that was written: when the namespace
    holds the payloads of the values of [m], field by field, it returns [m],
    changes nothing, and agrees with [get] on every field. *)
Theorem get_dict_snapshot (self : nat) (key : string) (c : redis.Redis)
    (m : gmap string pickle.value) (s : state) :
  configured s self key c → hash_holds s c key (payload <$> m) →
  map_Forall (λ _ v, pickle.serializable v) m →
  RedisDict.get_dict self s = (Ret m, s)
  ∧ ∀ field v, m !! field = Some v → RedisDict.get self field s = (Ret v, s).
Proof.
  intros Hcfg Hh Hm. split.
  - rewrite (get_dict_reads self key c s _ Hcfg Hh), map_to_list_fmap.
    rewrite get_dict_loop_payloads.
    + rewrite foldl_insert_to_map by apply NoDup_fst_map_to_list.
      by rewrite list_to_map_to_list.
    + apply map_Forall_to_list in Hm. eapply Forall_impl; [exact Hm |].
      by intros [f v].
  - intros field v Hf.
    rewrite (get_present self field (payload v) key c s _ Hcfg Hh)
      by (by rewrite lookup_fmap, Hf).
    by rewrite (loads_dumps v (payload v) (dumps_serializable v (Hm field v Hf))).
Qed.

Lemma get_dict_snapshot_witness :
  RedisDict.get_dict 0
    (exp_with (payload <$> {[ "lr"%string := task 1; "seed"%string := task 9 ]}))
  = (Ret {[ "lr"%string := task 1; "seed"%string := task 9 ]},
     exp_with (payload <$> {[ "lr"%string := task 1; "seed"%string := task 9 ]}))
  ∧ ∀ field v,
      ({[ "lr"%string := task 1; "seed"%string := task 9 ]}
         : gmap string pickle.value) !! field = Some v →
      RedisDict.get 0 field
        (exp_with (payload <$> {[ "lr"%string := task 1; "seed"%string := task 9 ]}))
      = (Ret v,
         exp_with (payload <$> {[ "lr"%string := task 1; "seed"%string := task 9 ]})).
Proof.
  refine (get_dict_snapshot 0 "exp" (dict_client None None)
            {[ "lr"%string := task 1; "seed"%string := task 9 ]} _ _ _ _).
  - reflexivity.
  - eexists. repeat split; reflexivity.
  - intros field v Hf.
    apply lookup_insert_Some in Hf as [[_ <-]|[_ Hf]]; [exact I |].
    apply lookup_singleton_Some in Hf as [_ <-]. exact I.
Defined.

(** X11. [get_dict] is all or nothing: one payload in the namespace that the
    codec rejects makes the whole call raise, whatever the other fields
    hold; nothing is changed. *)
Theorem get_dict_all_or_nothing (self : nat) (key field : string)
    (c : redis.Redis) (h : gmap string bytes) (b : bytes) (e : exn) (s : state) :
  configured s self key c → hash_holds s c key h →
  h !! field = Some b → pickle.loads (Some b) = Raise e →
  RedisDict.get_dict self s = (Raise DecodeError, s)
  ∧ RedisDict.get self field s = (Raise DecodeError, s).
Proof.
  intros Hcfg Hh Hf He.
  assert (pickle.loads (Some b) = Raise DecodeError) as Hbad.
  { destruct (loads_outcome b) as [[v Hv]|Hbad]; [congruence | done]. }
  split.
  - rewrite (get_dict_reads self key c s _ Hcfg Hh).
    apply get_dict_loop_raises, Exists_exists. exists (field, b).
    split; [by apply elem_of_map_to_list | done].
  - rewrite (get_present self field b key c s h Hcfg Hh Hf). by rewrite Hbad.
Qed.

Lemma get_dict_all_or_nothing_witness :
  RedisDict.get_dict 0
    (exp_with {[ "lr"%string := payload (task 1); "raw"%string := [x00; x2a] ]})
  = (Raise DecodeError,
     exp_with {[ "lr"%string := payload (task 1); "raw"%string := [x00; x2a] ]})
  ∧ RedisDict.get 0 "raw"
      (exp_with {[ "lr"%string := payload (task 1); "raw"%string := [x00; x2a] ]})
    = (Raise DecodeError,
       exp_with {[ "lr"%string := payload (task 1); "raw"%string := [x00; x2a] ]}).
Proof.
  refine (get_dict_all_or_nothing 0 "exp" "raw" (dict_client None None)
            {[ "lr"%string := payload (task 1); "raw"%string := [x00; x2a] ]}
            [x00; x2a] DecodeError _ _ _ _ _).
  - reflexivity.
  - eexists. repeat split; reflexivity.
  - reflexivity.
  - reflexivity.
Defined.

(** X12. Namespaces are separate and the instance follows the last
    [set_db]: a field written under one key is not seen after [set_db] to
    another key of the same store ([get] prints its line and returns
    [None]), and is seen again, unchanged, after [set_db] back to the first
    key. *)
Theorem namespaces_are_separate (self : nat) (keyA keyB field : string)
    (host password : option string) (v : pickle.value)
    (hA hB : gmap string bytes) (s : state) :
  is_Some (heap s !! self) →
  hash_holds s (dict_client host password) keyA hA →
  hash_holds s (dict_client host password) keyB hB →
  keyA ≠ keyB → hB !! field = None → pickle.serializable v →
  ∃ s1 s2 s3 s4 s5,
    RedisDict.set_db self keyA host password s = (Ret tt, s1)
    ∧ RedisDict.set self field v s1 = (Ret tt, s2)
    ∧ RedisDict.set_db self keyB host password s2 = (Ret tt, s3)
    ∧ RedisDict.get self field s3 = (Ret pickle.VNone, s4)
    ∧ stdout s4 = stdout s ++ [missing_field_line field (Some keyB)]
    ∧ RedisDict.set_db self keyA host password s4 = (Ret tt, s5)
    ∧ RedisDict.get self field s5 = (Ret v, s5).
Proof.
  intros Hlive HA HB Hne Hfield Hv. set (c := dict_client host password) in *.
  destruct (set_db_configures self keyA host password s Hlive)
    as (s1 & Hdb1 & Hcfg1 & Hst1 & Hout1 & _).
  apply (hash_holds_store s s1 _ _ _ Hst1) in HA, HB.
  destruct HA as (srv & Hs & Hc & HhA).
  pose proof (set_state self field v (payload v) keyA c s1 srv hA Hcfg1 Hs Hc HhA
                (dumps_serializable v Hv)) as Hset.
  set (ks2 := <[keyA := redis.RHash (<[field := payload v]> hA)]>
                (redis.keyspace srv)) in *.
  set (s2 := with_keyspace (endpoint c) ks2 s1) in *.
  assert (hash_holds s2 c keyB hB) as HB2.
  { apply (hash_holds_frame s1 c c keyB hB srv ks2 Hs); [| done].
    intros _. by apply hash_at_insert_ne. }
  assert (hash_holds s2 c keyA (<[field := payload v]> hA)) as HA2.
  { exists {| redis.requirepass := redis.requirepass srv; redis.keyspace := ks2 |}.
    unfold s2, with_keyspace. simpl. rewrite lookup_alter_eq, Hs.
    repeat split; [done |]. apply hash_at_insert. }
  assert (is_Some (heap s2 !! self)) as Hlive2 by (by eexists).
  destruct (set_db_configures self keyB host password s2 Hlive2)
    as (s3 & Hdb3 & Hcfg3 & Hst3 & Hout3 & _).
  apply (hash_holds_store s2 s3 _ _ _ Hst3) in HA2, HB2.
  pose proof (get_absent self field keyB c s3 hB Hcfg3 HB2 Hfield) as Hget.
  set (s4 := {| store := store s3; heap := heap s3;
                stdout := stdout s3 ++ [missing_field_line field (Some keyB)];
                utils_RedisDict := utils_RedisDict s3 |}) in *.
  assert (is_Some (heap s4 !! self)) as Hlive4 by (by eexists).
  destruct (set_db_configures self keyA host password s4 Hlive4)
    as (s5 & Hdb5 & Hcfg5 & Hst5 & _).
  apply (hash_holds_store s3 s5 _ _ _ Hst5) in HA2.
  exists s1, s2, s3, s4, s5. repeat split; [done ..| | done |].
  - simpl. by rewrite Hout3, <- Hout1.
  - rewrite (get_present self field (payload v) keyA c s5 _ Hcfg5 HA2
               (lookup_insert_eq _ _ _)).
    by rewrite (loads_dumps v (payload v) (dumps_serializable v Hv)).
Qed.

Lemma namespaces_are_separate_witness :
  ∃ s1 s2 s3 s4 s5,
    RedisDict.set_db 0 "run-a" None None loaded_process = (Ret tt, s1)
    ∧ RedisDict.set 0 "x" (task 1) s1 = (Ret tt, s2)
    ∧ RedisDict.set_db 0 "run-b" None None s2 = (Ret tt, s3)
    ∧ RedisDict.get 0 "x" s3 = (Ret pickle.VNone, s4)
    ∧ stdout s4 = stdout loaded_process
                  ++ [missing_field_line "x" (Some "run-b"%string)]
    ∧ RedisDict.set_db 0 "run-a" None None s4 = (Ret tt, s5)
    ∧ RedisDict.get 0 "x" s5 = (Ret (task 1), s5).
Proof.
  refine (namespaces_are_separate 0 "run-a" "run-b" "x" None None (task 1) ∅ ∅
            loaded_process _ _ _ _ _ _).
  - eexists. reflexivity.
  - eexists. repeat split; reflexivity.
  - eexists. repeat split; reflexivity.
  - discriminate.
  - reflexivity.
  - exact I.
Defined.

(** X13. The answer of [get] does not tell a field that holds [None] from a
    field that is not there: both calls return [None]; only the second
    prints. *)
Theorem none_is_ambiguous (self : nat) (key field missing : string)
    (c : redis.Redis) (h : gmap string bytes) (s : state) :
  configured s self key c → hash_holds s c key h →
  missing ≠ field → h !! missing = None →
  ∃ s1 s2,
    RedisDict.set self field pickle.VNone s = (Ret tt, s1)
    ∧ RedisDict.get self field s1 = (Ret pickle.VNone, s1)
    ∧ RedisDict.get self missing s1 = (Ret pickle.VNone, s2)
    ∧ stdout s2 = stdout s1 ++ [missing_field_line missing (Some key)].
Proof.
  intros Hcfg Hh Hne Hmiss.
  destruct (set_holds self field pickle.VNone _ key c s h Hcfg Hh eq_refl)
    as (s1 & Hset & Hh1 & Hheap1 & _).
  pose proof (configured_heap s s1 self key c Hheap1 Hcfg) as Hcfg1.
  exists s1. eexists. split; [done |]. split; [| split].
  - by rewrite (get_present self field _ key c s1 _ Hcfg1 Hh1 (lookup_insert_eq _ _ _)).
  - apply (get_absent self missing key c s1 _ Hcfg1 Hh1).
    by rewrite lookup_insert_ne.
  - done.
Qed.

Lemma none_is_ambiguous_witness :
  ∃ s1 s2,
    RedisDict.set 0 "best" pickle.VNone configured_process = (Ret tt, s1)
    ∧ RedisDict.get 0 "best" s1 = (Ret pickle.VNone, s1)
    ∧ RedisDict.get 0 "worst" s1 = (Ret pickle.VNone, s2)
    ∧ stdout s2 = stdout s1 ++ [missing_field_line "worst" (Some "exp"%string)].
Proof.
  refine (none_is_ambiguous 0 "exp" "best" "worst" (dict_client None None) ∅
            configured_process _ _ _ _).
  - reflexivity.
  - eexists. repeat split; reflexivity.
  - discriminate.
  - reflexivity.
Defined.

(** X14. A configured dictionary whose store does not answer raises
    [StoreUnavailableError] from [get], [get_dict] and [set]; [set] still
    fails in the codec first for a value that cannot be encoded. Nothing is
    printed and nothing changes. *)
Theorem dict_store_unavailable (self : nat) (key field : string)
    (c : redis.Redis) (v : pickle.value) (s : state) :
  configured s self key c → unreachable s c →
  RedisDict.get self field s = (Raise StoreUnavailableError, s)
  ∧ RedisDict.get_dict self s = (Raise StoreUnavailableError, s)
  ∧ RedisDict.set self field v s
    = (if pickle.serializable v then Raise StoreUnavailableError
       else Raise EncodeError, s).
Proof.
  intros Hcfg Hdown.
  assert (deref self s = (Ret {| exp_key := Some key; r := Some c |}, s)) as Hd
    by (unfold deref; by rewrite Hcfg).
  repeat split.
  - unfold RedisDict.get. rewrite (bind_ret _ _ s s _ Hd).
    rewrite (bind_ret _ _ s s c) by done.
    apply bind_raise, (keyed_down c _ _ s Hdown).
  - unfold RedisDict.get_dict. rewrite (bind_ret _ _ s s _ Hd).
    rewrite (bind_ret _ _ s s c) by done.
    apply bind_raise, (keyed_down c _ _ s Hdown).
  - unfold RedisDict.set. rewrite (bind_ret _ _ s s _ Hd).
    unfold pickle.dumps. destruct (pickle.serializable v).
    + rewrite (bind_ret _ _ s s (payload v)) by done.
      rewrite (bind_ret _ _ s s c) by done.
      apply bind_raise, (keyed_down c _ _ s Hdown).
    + by apply bind_raise.
Qed.

Lemma dict_store_unavailable_witness :
  RedisDict.get 0 "x" misconfigured_process
  = (Raise StoreUnavailableError, misconfigured_process)
  ∧ RedisDict.get_dict 0 misconfigured_process
    = (Raise StoreUnavailableError, misconfigured_process)
  ∧ RedisDict.set 0 "x" open_log misconfigured_process
    = (Raise EncodeError, misconfigured_process).
Proof.
  refine (dict_store_unavailable 0 "exp" "x"
            (dict_client (Some "10.0.0.7"%string) None) open_log
            misconfigured_process _ _).
  - reflexivity.
  - intros srv Hsrv. vm_compute in Hsrv. discriminate.
Defined.

(** X15. Once the dictionary of [singleton] holds an instance of a class,
    [get_instance] returns that instance and does not call the constructor:
    state and dictionary stay as they are. After a first call that created
    the instance, every further call is of that kind. *)
Theorem get_instance_creates_once (cls : class) (instances instances' : gmap string nat)
    (s s' : state) (o : nat) :
  get_instance cls instances s = (Ret (o, instances'), s') →
  instances' !! cls_name cls = Some o
  ∧ (∀ s'', get_instance cls instances' s'' = (Ret (o, instances'), s''))
  ∧ (∀ o0, instances !! cls_name cls = Some o0 →
           o = o0 ∧ instances' = instances ∧ s' = s).
Proof.
  unfold get_instance. destruct (instances !! cls_name cls) as [o'|] eqn:E.
  - intros [= -> -> ->]. rewrite E. split; [done |]. split; [done |].
    by intros o0 [= ->].
  - unfold bind, ret. destruct (cls_call cls s) as [[o'| |] s1]; [| done ..].
    intros [= -> <- ->]. rewrite lookup_insert_eq.
    split; [done |]. split; [done |]. by intros o0 [=].
Qed.

Lemma get_instance_creates_once_witness :
  ({[ "RedisDict"%string := 0%nat ]} : gmap string nat) !! "RedisDict"%string
  = Some 0%nat
  ∧ (∀ s'', get_instance RedisDict.cls {[ "RedisDict"%string := 0%nat ]} s''
            = (Ret (0%nat, {[ "RedisDict"%string := 0%nat ]}), s''))
  ∧ (∀ o0, ({[ "RedisDict"%string := 0%nat ]} : gmap string nat)
             !! "RedisDict"%string = Some o0 →
           0%nat = o0
           ∧ ({[ "RedisDict"%string := 0%nat ]} : gmap string nat)
             = {[ "RedisDict"%string := 0%nat ]}
           ∧ loaded_process = loaded_process).
Proof.
  refine (get_instance_creates_once RedisDict.cls
            {[ "RedisDict"%string := 0%nat ]} {[ "RedisDict"%string := 0%nat ]}
            loaded_process loaded_process 0 _).
  reflexivity.
Defined.

(** ** [str2bool] *)

Lemma yes_no_disjoint (w : string) : w ∈ yes_words → w ∈ no_words → False.
Proof.
  unfold yes_words, no_words. rewrite !elem_of_cons, !elem_of_nil.
  intros Hyes Hno.
  destruct Hyes as [->|[->|[->|[->|[->|[]]]]]];
    destruct Hno as [?|[?|[?|[?|[?|[]]]]]]; discriminate.
Qed.

(** X16. [str2bool] sorts strings by their lower-case form: it returns
    [True] exactly for the five words of yes, [False] exactly for the five
    words of no, and raises [ArgumentTypeError] exactly for everything else;
    no string gets two answers. *)
Theorem str2bool_words (s : string) :
  (str2bool (pickle.VStr s) = Returned true ↔ lower s ∈ yes_words)
  ∧ (str2bool (pickle.VStr s) = Returned false ↔ lower s ∈ no_words)
  ∧ (str2bool (pickle.VStr s) = Raised (ArgumentTypeError "Boolean value expected.")
     ↔ (lower s ∉ yes_words) ∧ (lower s ∉ no_words)).
Proof.
  unfold str2bool. case_bool_decide as Hyes; [| case_bool_decide as Hno].
  - pose proof (yes_no_disjoint _ Hyes) as Hdis.
    split; [done |]. split; split; [done | by intros ?%Hdis | done | by intros [? _]].
  - split; [split; [done | by intros ?%Hyes] |].
    split; [done |]. split; [done | by intros [_ ?]].
  - split; [split; [done | by intros ?%Hyes] |].
    split; [split; [done | by intros ?%Hno] | done].
Qed.

(** ** [timeout] *)

Lemma int_below_one (x : QArith_base.Q) :
  QArith_base.Qlt x (QArith_base.inject_Z 1) → timeout.int x ≤ 0.
Proof.
  unfold QArith_base.Qlt, timeout.int. destruct x as [n d]. simpl. intros Hlt.
  assert (n ≤ Z.pos d - 1) as Hle by lia.
  etrans; [apply (Z.quot_le_mono n (Z.pos d - 1) (Z.pos d)); [lia | exact Hle] |].
  rewrite Z.quot_small; lia.
Qed.

Lemma int_from_one (x : QArith_base.Q) :
  QArith_base.Qle (QArith_base.inject_Z 1) x →
  1 ≤ timeout.int x
  ∧ QArith_base.Qle (QArith_base.inject_Z (timeout.int x)) x
  ∧ QArith_base.Qlt x (QArith_base.inject_Z (timeout.int x + 1)).
Proof.
  unfold QArith_base.Qle, QArith_base.Qlt, timeout.int. destruct x as [n d].
  simpl. intros Hle.
  pose proof (Z.mul_quot_le n (Z.pos d) ltac:(lia) ltac:(lia)) as Hlow.
  pose proof (Z.mul_succ_quot_gt n (Z.pos d) ltac:(lia) ltac:(lia)) as Hhigh.
  pose proof (Z.quot_le_mono (Z.pos d) n (Z.pos d) ltac:(lia) ltac:(lia)) as Hone.
  rewrite Z.quot_same in Hone by lia. lia.
Qed.

Lemma int_below_limit (x : QArith_base.Q) :
  QArith_base.Qle (QArith_base.inject_Z 1) x →
  QArith_base.Qlt x (QArith_base.inject_Z (2 ^ 31)) →
  timeout.int x < 2 ^ 31.
Proof.
  unfold QArith_base.Qle, QArith_base.Qlt, timeout.int. destruct x as [n d].
  simpl. intros Hle Hlt. apply Z.quot_lt_upper_bound; lia.
Qed.

Lemma int_from_limit (x : QArith_base.Q) :
  QArith_base.Qle (QArith_base.inject_Z (2 ^ 31)) x → 2 ^ 31 ≤ timeout.int x.
Proof.
  unfold QArith_base.Qle, timeout.int. destruct x as [n d]. simpl. intros Hle.
  apply Z.quot_le_lower_bound; lia.
Qed.

Lemma enter_installs (self : timeout.t) (sg : timeout.signals) :
  timeout.main_thread sg = true →
  timeout.__enter__ self sg
  = if 0 <? timeout.seconds self then
      if 2 ^ 31 <=? timeout.seconds self then
        (Raised OverflowError,
         {| timeout.main_thread := true; timeout.sigalrm := Some self;
            timeout.alarm := timeout.alarm sg |})
      else
        (Returned tt,
         {| timeout.main_thread := true; timeout.sigalrm := Some self;
            timeout.alarm := timeout.seconds self |})
    else
      (Returned tt,
       {| timeout.main_thread := true; timeout.sigalrm := Some self;
          timeout.alarm := timeout.alarm sg |}).
Proof.
  intros Hmain. unfold timeout.__enter__, timeout.signal_signal.
  rewrite Hmain. destruct (Z.ltb_spec 0 (timeout.seconds self)) as [Hpos|]; [| done].
  unfold timeout.signal_alarm. cbn [timeout.main_thread timeout.sigalrm timeout.alarm].
  destruct (Z.ltb_spec (timeout.seconds self) (- 2 ^ 31)) as [|_]; [lia |].
  destruct (Z.leb_spec (2 ^ 31) (timeout.seconds self)) as [|Hfit]; [done |].
  cbn [orb]. by rewrite Z.mod_small by lia.
Qed.

(** X17. The limit of a [timeout] scope is [int(seconds)], armed from the
    main thread: a limit below one second arms no alarm at all on entry
    (whatever was pending stays pending); a limit from one second up to, not
    including, 2^31 seconds arms the alarm with the whole seconds, the
    fraction cut off; from 2^31 seconds on, entry raises [OverflowError]
    with the handler installed and no alarm armed. *)
Theorem timeout_whole_seconds (seconds : QArith_base.Q) (msg : string)
    (sg : timeout.signals) :
  timeout.main_thread sg = true →
  (QArith_base.Qlt seconds (QArith_base.inject_Z 1) →
   timeout.__enter__ (timeout.__init__ seconds msg) sg
   = (Returned tt,
      {| timeout.main_thread := true;
         timeout.sigalrm := Some (timeout.__init__ seconds msg);
         timeout.alarm := timeout.alarm sg |}))
  ∧ (QArith_base.Qle (QArith_base.inject_Z 1) seconds →
     QArith_base.Qlt seconds (QArith_base.inject_Z (2 ^ 31)) →
     ∃ n, timeout.__enter__ (timeout.__init__ seconds msg) sg
          = (Returned tt,
             {| timeout.main_thread := true;
                timeout.sigalrm := Some (timeout.__init__ seconds msg);
                timeout.alarm := n |})
          ∧ 1 ≤ n
          ∧ QArith_base.Qle (QArith_base.inject_Z n) seconds
          ∧ QArith_base.Qlt seconds (QArith_base.inject_Z (n + 1)))
  ∧ (QArith_base.Qle (QArith_base.inject_Z (2 ^ 31)) seconds →
     timeout.__enter__ (timeout.__init__ seconds msg) sg
     = (Raised OverflowError,
        {| timeout.main_thread := true;
           timeout.sigalrm := Some (timeout.__init__ seconds msg);
           timeout.alarm := timeout.alarm sg |})).
Proof.
  intros Hmain. rewrite (enter_installs _ sg Hmain).
  cbn [timeout.__init__ timeout.seconds]. split; [| split].
  - intros Hlt. pose proof (int_below_one seconds Hlt).
    destruct (Z.ltb_spec 0 (timeout.int seconds)); [lia | done].
  - intros Hle Hlt. destruct (int_from_one seconds Hle) as (Hone & Hlow & Hhigh).
    pose proof (int_below_limit seconds Hle Hlt).
    exists (timeout.int seconds).
    destruct (Z.ltb_spec 0 (timeout.int seconds)); [| lia].
    destruct (Z.leb_spec (2 ^ 31) (timeout.int seconds)); [lia | done].
  - intros Hle. pose proof (int_from_limit seconds Hle).
    destruct (Z.ltb_spec 0 (timeout.int seconds)); [| lia].
    destruct (Z.leb_spec (2 ^ 31) (timeout.int seconds)); [done | lia].
Qed.

Lemma timeout_whole_seconds_witness :
  (QArith_base.Qlt (QArith_base.Qmake 1 2) (QArith_base.inject_Z 1) →
   timeout.__enter__ (timeout.__init__ (QArith_base.Qmake 1 2) "Timeout")
     {| timeout.main_thread := true; timeout.sigalrm := None; timeout.alarm := 0 |}
   = (Returned tt,
      {| timeout.main_thread := true;
         timeout.sigalrm := Some (timeout.__init__ (QArith_base.Qmake 1 2) "Timeout");
         timeout.alarm := 0 |}))
  ∧ (QArith_base.Qle (QArith_base.inject_Z 1) (QArith_base.Qmake 1 2) →
     QArith_base.Qlt (QArith_base.Qmake 1 2) (QArith_base.inject_Z (2 ^ 31)) →
     ∃ n, timeout.__enter__ (timeout.__init__ (QArith_base.Qmake 1 2) "Timeout")
            {| timeout.main_thread := true; timeout.sigalrm := None;
               timeout.alarm := 0 |}
          = (Returned tt,
             {| timeout.main_thread := true;
                timeout.sigalrm :=
                  Some (timeout.__init__ (QArith_base.Qmake 1 2) "Timeout");
                timeout.alarm := n |})
          ∧ 1 ≤ n
          ∧ QArith_base.Qle (QArith_base.inject_Z n) (QArith_base.Qmake 1 2)
          ∧ QArith_base.Qlt (QArith_base.Qmake 1 2) (QArith_base.inject_Z (n + 1)))
  ∧ (QArith_base.Qle (QArith_base.inject_Z (2 ^ 31)) (QArith_base.Qmake 1 2) →
     timeout.__enter__ (timeout.__init__ (QArith_base.Qmake 1 2) "Timeout")
       {| timeout.main_thread := true; timeout.sigalrm := None; timeout.alarm := 0 |}
     = (Raised OverflowError,
        {| timeout.main_thread := true;
           timeout.sigalrm :=
             Some (timeout.__init__ (QArith_base.Qmake 1 2) "Timeout");
           timeout.alarm := 0 |})).
Proof.
  refine (timeout_whole_seconds (QArith_base.Qmake 1 2) "Timeout"
            {| timeout.main_thread := true; timeout.sigalrm := None;
               timeout.alarm := 0 |} _).
  reflexivity.
Defined.

(** X18. [timeout] scopes do not nest. With an outer scope of a limit
    between 1 and 2^31 seconds entered from the main thread: entering and
    leaving an inner scope cancels the alarm of the outer scope and leaves
    the handler of the inner scope installed, so that the outer scope has no
    time limit from then on; and an inner scope of 2^31 seconds or more
    raises [OverflowError] on entry, with the alarm of the outer scope still
    pending but answered by the handler of the inner scope. *)
Theorem inner_scope_cancels_outer (outer inner : timeout.t) (sg : timeout.signals) :
  timeout.main_thread sg = true →
  0 < timeout.seconds outer → timeout.seconds outer < 2 ^ 31 →
  ∃ sg1,
    timeout.__enter__ outer sg = (Returned tt, sg1)
    ∧ timeout.alarm sg1 = timeout.seconds outer
    ∧ (timeout.seconds inner < 2 ^ 31 →
       ∃ sg2,
         timeout.__enter__ inner sg1 = (Returned tt, sg2)
         ∧ timeout.__exit__ inner sg2
           = (Returned tt,
              {| timeout.main_thread := true; timeout.sigalrm := Some inner;
                 timeout.alarm := 0 |}))
    ∧ (2 ^ 31 ≤ timeout.seconds inner →
       timeout.__enter__ inner sg1
       = (Raised OverflowError,
          {| timeout.main_thread := true; timeout.sigalrm := Some inner;
             timeout.alarm := timeout.seconds outer |})).
Proof.
  intros Hmain Hpos Hfit. rewrite (enter_installs outer sg Hmain).
  destruct (Z.ltb_spec 0 (timeout.seconds outer)); [| lia].
  destruct (Z.leb_spec (2 ^ 31) (timeout.seconds outer)); [lia |].
  set (sg1 := {| timeout.main_thread := true; timeout.sigalrm := Some outer;
                 timeout.alarm := timeout.seconds outer |}).
  exists sg1. split; [done |]. split; [done |].
  rewrite (enter_installs inner sg1 eq_refl). cbn [timeout.alarm sg1]. split.
  - intros Hinner.
    destruct (Z.leb_spec (2 ^ 31) (timeout.seconds inner)); [lia |].
    destruct (0 <? timeout.seconds inner); (eexists; split; [reflexivity | done]).
  - intros Hinner.
    destruct (Z.ltb_spec 0 (timeout.seconds inner)); [| lia].
    destruct (Z.leb_spec (2 ^ 31) (timeout.seconds inner)); [done | lia].
Qed.

Lemma inner_scope_cancels_outer_witness :
  ∃ sg1,
    timeout.__enter__ (timeout.__init__ (QArith_base.inject_Z 10) "outer")
      {| timeout.main_thread := true; timeout.sigalrm := None; timeout.alarm := 0 |}
    = (Returned tt, sg1)
    ∧ timeout.alarm sg1 = 10
    ∧ (1 < 2 ^ 31 →
       ∃ sg2,
         timeout.__enter__ (timeout.__init__ (QArith_base.inject_Z 1) "inner") sg1
         = (Returned tt, sg2)
         ∧ timeout.__exit__ (timeout.__init__ (QArith_base.inject_Z 1) "inner") sg2
           = (Returned tt,
              {| timeout.main_thread := true;
                 timeout.sigalrm :=
                   Some (timeout.__init__ (QArith_base.inject_Z 1) "inner");
                 timeout.alarm := 0 |}))
    ∧ (2 ^ 31 ≤ 1 →
       timeout.__enter__ (timeout.__init__ (QArith_base.inject_Z 1) "inner") sg1
       = (Raised OverflowError,
          {| timeout.main_thread := true;
             timeout.sigalrm :=
               Some (timeout.__init__ (QArith_base.inject_Z 1) "inner");
             timeout.alarm := 10 |})).
Proof.
  refine (inner_scope_cancels_outer
            (timeout.__init__ (QArith_base.inject_Z 10) "outer")
            (timeout.__init__ (QArith_base.inject_Z 1) "inner")
            {| timeout.main_thread := true; timeout.sigalrm := None;
               timeout.alarm := 0 |} _ _ _); reflexivity.
Defined.

(** ** [Map] *)

Lemma foldl_insert_union {A B : Type} (g : A → B) (l : list (string * A)) :
  ∀ base : gmap string B,
    foldl (λ acc kv, <[kv.1 := g kv.2]> acc) base l
    = list_to_map (reverse (prod_map id g <$> l)) ∪ base.
Proof.
  induction l as [|[k v] l IH]; intros base.
  - simpl. by rewrite (left_id ∅ (∪)).
  - cbn [foldl fmap list_fmap prod_map fst snd id]. rewrite IH.
    rewrite reverse_cons, list_to_map_app. simpl.
    rewrite <- (assoc (∪)). f_equal.
    by rewrite insert_empty, <- insert_union_singleton_l.
Qed.

Lemma init_items_fold (kvs : list (string * pickle.value)) :
  ∀ self : Map.t,
    Map.init_items self kvs
    = {| Map.items :=
           foldl (λ acc kv, <[kv.1 := none_of_str kv.2]> acc) (Map.items self) kvs;
         Map.__dict__ :=
           foldl (λ acc kv, <[kv.1 := none_of_str kv.2]> acc) (Map.__dict__ self) kvs |}.
Proof.
  induction kvs as [|[k v] kvs IH]; intros self; [by destruct self |].
  cbn [Map.init_items foldl fst snd]. rewrite IH. unfold none_of_str.
  destruct (Map.is_None_str v); [| done].
  unfold Map.__setitem__. simpl. by rewrite !insert_insert_eq.
Qed.

Lemma update_items_fold (kvs : list (string * pickle.value)) :
  ∀ self : Map.t,
    Map.update_items self kvs
    = {| Map.items := Map.fill (Map.items self) kvs;
         Map.__dict__ := Map.fill (Map.__dict__ self) kvs |}.
Proof.
  induction kvs as [|[k v] kvs IH]; intros self; [by destruct self |].
  cbn [Map.update_items]. by rewrite IH.
Qed.

Lemma update_args_fold (args : list Map.arg) :
  ∀ self : Map.t,
    Map.update_args self args
    = {| Map.items := Map.fill (Map.items self) (dict_items args);
         Map.__dict__ := Map.fill (Map.__dict__ self) (dict_items args) |}.
Proof.
  induction args as [|[d|l] args IH]; intros self; [by destruct self | |].
  - cbn [Map.update_args dict_items]. rewrite IH, update_items_fold.
    unfold Map.fill. simpl. by rewrite !foldl_app.
  - cbn [Map.update_args dict_items]. by rewrite IH.
Qed.

(** Rewriting every binding of a filled dictionary with its normal form
    gives the dictionary filled with the normal forms. *)
Lemma refill_normalised (l : list (string * pickle.value)) :
  foldl (λ acc kv, <[kv.1 := none_of_str kv.2]> acc) (Map.fill ∅ l) l
  = foldl (λ acc kv, <[kv.1 := none_of_str kv.2]> acc) ∅ l.
Proof.
  unfold Map.fill.
  rewrite (foldl_insert_union none_of_str l (foldl _ ∅ l)).
  rewrite (foldl_insert_union none_of_str l ∅).
  rewrite (foldl_insert_union id l ∅).
  rewrite !(right_id ∅ (∪)). apply map_eq. intros k.
  destruct (list_to_map (reverse (prod_map id none_of_str <$> l)) !! k)
    as [x|] eqn:E.
  - by rewrite (lookup_union_Some_l _ _ _ _ E).
  - rewrite lookup_union_r by done.
    apply not_elem_of_list_to_map in E. apply not_elem_of_list_to_map.
    intros Hin. apply E.
    assert (∀ (g : pickle.value → pickle.value) (l' : list (string * pickle.value)),
              (prod_map id g <$> l').*1 = l'.*1) as Hfst.
    { intros g l'. rewrite <- list_fmap_compose. apply list_fmap_ext.
      by intros ? [] ?. }
    rewrite <- !fmap_reverse, !Hfst in *. done.
Qed.

Lemma Map_init_held (d kwargs : list (string * pickle.value)) :
  Map.binds kwargs = true →
  let held :=
    foldl (λ acc kv, <[kv.1 := none_of_str kv.2]> acc) ∅ (d ++ kwargs) in
  Map.__init__ [Map.Dict d] kwargs
  = Returned {| Map.items := held; Map.__dict__ := held |}
  ∧ (d = [] → Map.__init__ [] kwargs
              = Returned {| Map.items := held; Map.__dict__ := held |}).
Proof.
  intros Hbinds held.
  assert (∀ args, Map.init_args {| Map.items := Map.fill ∅ (d ++ kwargs);
                                 Map.__dict__ := ∅ |} args
                  = Map.init_items {| Map.items := Map.fill ∅ (d ++ kwargs);
                                      Map.__dict__ := ∅ |} (dict_items args))
    as Hargs.
  { intros args. generalize ({| Map.items := Map.fill ∅ (d ++ kwargs);
                                Map.__dict__ := ∅ |}).
    induction args as [|[d'|l'] args IH]; intros self; [done | |].
    - cbn [Map.init_args dict_items]. rewrite IH, !init_items_fold. simpl.
      by rewrite !foldl_app.
    - cbn [Map.init_args dict_items]. apply IH. }
  assert (Map.init_items (Map.init_items {| Map.items := Map.fill ∅ (d ++ kwargs);
                                            Map.__dict__ := ∅ |} d) kwargs
          = {| Map.items := held; Map.__dict__ := held |}) as Hboth.
  { rewrite !init_items_fold. simpl. rewrite <- !foldl_app.
    by rewrite refill_normalised. }
  split.
  - unfold Map.__init__, Map.dict_init. rewrite Hbinds. cbn [Map.pairs_of].
    replace (Map.fill (Map.fill ∅ d) kwargs) with (Map.fill ∅ (d ++ kwargs))
      by (unfold Map.fill; by rewrite foldl_app).
    rewrite (Hargs [Map.Dict d]). cbn [dict_items]. rewrite app_nil_r.
    rewrite <- Hboth. by destruct kwargs.
  - intros ->. unfold Map.__init__, Map.dict_init. rewrite Hbinds.
    cbn [Map.init_args]. rewrite <- Hboth. simpl. by destruct kwargs.
Qed.

(** What the normalising fill holds at a key, by the binding of the key that
    comes last in the list. *)
Lemma held_lookup (l : list (string * pickle.value)) (k : string) :
  foldl (λ acc kv, <[kv.1 := none_of_str kv.2]> acc)
    (∅ : gmap string pickle.value) l !! k
  = none_of_str <$> (list_to_map (reverse l) : gmap string pickle.value) !! k.
Proof.
  rewrite (foldl_insert_union none_of_str l ∅), (right_id ∅ (∪)).
  by rewrite <- fmap_reverse, list_to_map_fmap, lookup_fmap.
Qed.

Lemma none_of_str_other (v : pickle.value) :
  v ≠ pickle.VStr "None" → none_of_str v = v.
Proof.
  intros Hv. unfold none_of_str. destruct v as [| | |s| | | |]; try done.
  simpl. case_bool_decide; [by subst s | done].
Qed.

Lemma binds_true (kwargs : list (string * pickle.value)) :
  "self"%string ∉ kwargs.*1 → Map.binds kwargs = true.
Proof. intros H. by apply bool_decide_eq_true_2. Qed.

Lemma binds_false (kwargs : list (string * pickle.value)) :
  "self"%string ∈ kwargs.*1 → Map.binds kwargs = false.
Proof. intros H. apply bool_decide_eq_false_2. by intros Hn. Qed.

(** X19. A [Map] built from at most one positional argument, a [dict], and
    keyword arguments none of which is named [self] has equal items and
    [__dict__], and holds at every key the value of the binding of that key
    that comes last, keyword arguments after the [dict], except that the
    string ['None'] is held as [None]: no value of such a [Map] is the
    string ['None']. A keyword argument named [self] makes the call raise
    [TypeError]. *)
Theorem Map_init_from_dict (args : list Map.arg)
    (kwargs : list (string * pickle.value)) :
  Forall (λ a, ∃ d, a = Map.Dict d) args → (length args ≤ 1)%nat →
  ("self"%string ∉ kwargs.*1 →
   ∃ m,
     Map.__init__ args kwargs = Returned m
     ∧ Map.items m = Map.__dict__ m
     ∧ (∀ k,
          match (list_to_map (reverse (dict_items args ++ kwargs))
                   : gmap string pickle.value) !! k with
          | None => Map.items m !! k = None
          | Some v =>
              (v = pickle.VStr "None" → Map.items m !! k = Some pickle.VNone)
              ∧ (v ≠ pickle.VStr "None" → Map.items m !! k = Some v)
          end)
     ∧ ∀ k, Map.items m !! k ≠ Some (pickle.VStr "None"))
  ∧ ("self"%string ∈ kwargs.*1 →
     Map.__init__ args kwargs = Raised (Core TypeError)).
Proof.
  intros Hdicts Hlen. split.
  - intros Hself. pose proof (binds_true kwargs Hself) as Hbinds.
    set (held := foldl (λ acc kv, <[kv.1 := none_of_str kv.2]> acc)
                   (∅ : gmap string pickle.value) (dict_items args ++ kwargs)).
    exists {| Map.items := held; Map.__dict__ := held |}.
    assert (∀ k,
              match (list_to_map (reverse (dict_items args ++ kwargs))
                       : gmap string pickle.value) !! k with
              | None => held !! k = None
              | Some v =>
                  (v = pickle.VStr "None" → held !! k = Some pickle.VNone)
                  ∧ (v ≠ pickle.VStr "None" → held !! k = Some v)
              end) as Hlookup.
    { intros k. unfold held. rewrite held_lookup.
      destruct (list_to_map (reverse (dict_items args ++ kwargs)) !! k)
        as [v|]; [| done].
      split; [by intros -> | intros Hv; simpl; by rewrite (none_of_str_other v Hv)]. }
    split; [| split; [done | split; [exact Hlookup |]]].
    + destruct args as [|a [|a' args]]; [| | simpl in Hlen; lia].
      * by apply (Map_init_held [] kwargs Hbinds).
      * apply Forall_cons in Hdicts as [[d ->] _]. clear Hlookup.
        subst held. cbn [dict_items]. rewrite app_nil_r.
        by apply (Map_init_held d kwargs Hbinds).
    + cbn [Map.items]. intros k Hk. specialize (Hlookup k).
      destruct (list_to_map (reverse (dict_items args ++ kwargs)) !! k) as [v|];
        [| congruence].
      destruct Hlookup as [Hnone Hother].
      destruct v as [| | |s| | | |];
        try (rewrite Hother in Hk by done; discriminate).
      destruct (decide (s = "None"%string)) as [->|Hs].
      * rewrite Hnone in Hk by done. discriminate.
      * rewrite Hother in Hk by congruence. congruence.
  - intros Hself. unfold Map.__init__. by rewrite (binds_false kwargs Hself).
Qed.

Lemma Map_init_from_dict_witness :
  ("self"%string ∉ [("b"%string, pickle.VInt 2)].*1 →
   ∃ m,
     Map.__init__
       [Map.Dict [("a"%string, pickle.VStr "None"); ("b"%string, pickle.VInt 1)]]
       [("b"%string, pickle.VInt 2)] = Returned m
     ∧ Map.items m = Map.__dict__ m
     ∧ (∀ k,
          match (list_to_map
                   (reverse
                      (dict_items
                         [Map.Dict [("a"%string, pickle.VStr "None");
                                    ("b"%string, pickle.VInt 1)]]
                       ++ [("b"%string, pickle.VInt 2)]))
                   : gmap string pickle.value) !! k with
          | None => Map.items m !! k = None
          | Some v =>
              (v = pickle.VStr "None" → Map.items m !! k = Some pickle.VNone)
              ∧ (v ≠ pickle.VStr "None" → Map.items m !! k = Some v)
          end)
     ∧ ∀ k, Map.items m !! k ≠ Some (pickle.VStr "None"))
  ∧ ("self"%string ∈ [("b"%string, pickle.VInt 2)].*1 →
     Map.__init__
       [Map.Dict [("a"%string, pickle.VStr "None"); ("b"%string, pickle.VInt 1)]]
       [("b"%string, pickle.VInt 2)] = Raised (Core TypeError)).
Proof.
  refine (Map_init_from_dict
            [Map.Dict [("a"%string, pickle.VStr "None"); ("b"%string, pickle.VInt 1)]]
            [("b"%string, pickle.VInt 2)] _ _).
  - repeat constructor. by eexists.
  - simpl. lia.
Defined.

(** X20. [Map] takes at most one positional argument: with two or more,
    [dict]s included, the constructor raises [TypeError] before any item is
    stored. *)
Theorem Map_init_two_arguments (args : list Map.arg)
    (kwargs : list (string * pickle.value)) :
  (2 ≤ length args)%nat → Map.__init__ args kwargs = Raised (Core TypeError).
Proof.
  intros Hlen. unfold Map.__init__. destruct (Map.binds kwargs); [| done].
  destruct args as [|a [|a' args]]; simpl in Hlen; [lia | lia | done].
Qed.

Lemma Map_init_two_arguments_witness :
  Map.__init__ [Map.Dict [("a"%string, pickle.VInt 1)];
                Map.Dict [("b"%string, pickle.VInt 2)]] []
  = Raised (Core TypeError).
Proof.
  refine (Map_init_two_arguments
            [Map.Dict [("a"%string, pickle.VInt 1)];
             Map.Dict [("b"%string, pickle.VInt 2)]] [] _).
  simpl. lia.
Defined.

(** X21. A [Map] built from a list of pairs instead of a [dict] has the
    items but an empty [__dict__]. Lookup through [__getattr__] still
    answers with the stored value and prints nothing, but deleting a key
    raises [KeyError] after the item is already gone. *)
Theorem Map_init_from_pairs (l : list (string * pickle.value)) (k : string)
    (v : pickle.value) (s : state) :
  Map.fill ∅ l !! k = Some v →
  ∃ m,
    Map.__init__ [Map.Pairs l] [] = Returned m
    ∧ Map.items m = Map.fill ∅ l ∧ Map.__dict__ m = ∅
    ∧ Map.__getattr__ m k s = (Ret v, s)
    ∧ Map.__delitem__ m k
      = (Raised (KeyError k),
         {| Map.items := delete k (Map.fill ∅ l); Map.__dict__ := ∅ |}).
Proof.
  intros Hk. eexists. split; [reflexivity |]. simpl.
  repeat split.
  - unfold Map.__getattr__. simpl. by rewrite Hk.
  - unfold Map.__delitem__. simpl. by rewrite Hk.
Qed.

Lemma Map_init_from_pairs_witness :
  ∃ m,
    Map.__init__ [Map.Pairs [("a"%string, pickle.VInt 1)]] [] = Returned m
    ∧ Map.items m = Map.fill ∅ [("a"%string, pickle.VInt 1)]
    ∧ Map.__dict__ m = ∅
    ∧ Map.__getattr__ m "a" fresh_process = (Ret (pickle.VInt 1), fresh_process)
    ∧ Map.__delitem__ m "a"
      = (Raised (KeyError "a"),
         {| Map.items := delete "a"%string (Map.fill ∅ [("a"%string, pickle.VInt 1)]);
            Map.__dict__ := ∅ |}).
Proof.
  refine (Map_init_from_pairs [("a"%string, pickle.VInt 1)] "a" (pickle.VInt 1)
            fresh_process _).
  reflexivity.
Defined.



(** X23. Items and [__dict__] stay in step: on a [Map] where they agree,
    they agree after [__setitem__], after [__setattr__], after [update] with
    any arguments, whether it returns or raises, and after [__delitem__],
    whether it returns or raises. *)
Theorem Map_views_stay_in_step (m : Map.t) (k : string) (v : pickle.value)
    (args : list Map.arg) (kwargs : list (string * pickle.value)) :
  Map.items m = Map.__dict__ m →
  Map.items (Map.__setitem__ m k v) = Map.__dict__ (Map.__setitem__ m k v)
  ∧ Map.items (Map.__setattr__ m k v) = Map.__dict__ (Map.__setattr__ m k v)
  ∧ Map.items (Map.update m args kwargs).2
    = Map.__dict__ (Map.update m args kwargs).2
  ∧ Map.items (Map.__delitem__ m k).2 = Map.__dict__ (Map.__delitem__ m k).2.
Proof.
  destruct m as [it di]. simpl. intros <-. repeat split.
  - unfold Map.update. destruct (Map.binds kwargs); [| done].
    cbn [snd]. rewrite update_args_fold.
    destruct kwargs; [done |]. by rewrite update_items_fold.
  - unfold Map.__delitem__. simpl. by destruct (it !! k).
Qed.

Lemma Map_views_stay_in_step_witness :
  Map.items (Map.__setitem__ {| Map.items := ∅; Map.__dict__ := ∅ |} "a" pickle.VNone)
  = Map.__dict__ (Map.__setitem__ {| Map.items := ∅; Map.__dict__ := ∅ |} "a" pickle.VNone)
  ∧ Map.items (Map.__setattr__ {| Map.items := ∅; Map.__dict__ := ∅ |} "a" pickle.VNone)
    = Map.__dict__ (Map.__setattr__ {| Map.items := ∅; Map.__dict__ := ∅ |} "a" pickle.VNone)
  ∧ Map.items (Map.update {| Map.items := ∅; Map.__dict__ := ∅ |}
                 [Map.Dict [("b"%string, pickle.VInt 2)]]
                 [("c"%string, pickle.VInt 3)]).2
    = Map.__dict__ (Map.update {| Map.items := ∅; Map.__dict__ := ∅ |}
                      [Map.Dict [("b"%string, pickle.VInt 2)]]
                      [("c"%string, pickle.VInt 3)]).2
  ∧ Map.items (Map.__delitem__ {| Map.items := ∅; Map.__dict__ := ∅ |} "a").2
    = Map.__dict__ (Map.__delitem__ {| Map.items := ∅; Map.__dict__ := ∅ |} "a").2.
Proof.
  refine (Map_views_stay_in_step {| Map.items := ∅; Map.__dict__ := ∅ |} "a"
            pickle.VNone [Map.Dict [("b"%string, pickle.VInt 2)]]
            [("c"%string, pickle.VInt 3)] _).
  reflexivity.
Defined.

(** X24. [update] called with keyword arguments none of which is named
    [self] returns [None] and stores the values of its [dict] arguments and
    keyword arguments as they come, later bindings over earlier ones,
    skipping every positional argument that is not a [dict]: unlike the
    constructor it keeps the string ['None'], and unlike [dict.update] it
    ignores a list of pairs. A keyword argument named [self] makes the call
    raise [TypeError] and store nothing. *)
Theorem Map_update_keeps_values (m : Map.t) (args : list Map.arg)
    (kwargs l : list (string * pickle.value)) (k : string) :
  ("self"%string ∉ kwargs.*1 →
   Map.update m args kwargs
   = (Returned tt,
      {| Map.items := Map.fill (Map.items m) (dict_items args ++ kwargs);
         Map.__dict__ := Map.fill (Map.__dict__ m) (dict_items args ++ kwargs) |}))
  ∧ ("self"%string ∈ kwargs.*1 →
     Map.update m args kwargs = (Raised (Core TypeError), m))
  ∧ Map.update m [Map.Pairs l] [] = (Returned tt, m)
  ∧ (k ≠ "self"%string →
     ∃ m', Map.update m [] [(k, pickle.VStr "None")] = (Returned tt, m')
           ∧ Map.items m' !! k = Some (pickle.VStr "None")).
Proof.
  split; [| split; [| split]].
  - intros Hself. unfold Map.update. rewrite (binds_true kwargs Hself).
    rewrite update_args_fold. f_equal. destruct kwargs.
    + by rewrite app_nil_r.
    + rewrite update_items_fold. unfold Map.fill. simpl. by rewrite !foldl_app.
  - intros Hself. unfold Map.update. by rewrite (binds_false kwargs Hself).
  - by destruct m.
  - intros Hk. unfold Map.update. rewrite binds_true.
    + eexists. split; [reflexivity |]. simpl. apply lookup_insert_eq.
    + simpl. rewrite elem_of_cons, elem_of_nil. by intros [?|[]].
Qed.

Lemma Map_update_keeps_values_witness :
  ("self"%string ∉ [("c"%string, pickle.VStr "None")].*1 →
   Map.update {| Map.items := ∅; Map.__dict__ := ∅ |}
     [Map.Pairs [("a"%string, pickle.VInt 1)];
      Map.Dict [("b"%string, pickle.VInt 2)]]
     [("c"%string, pickle.VStr "None")]
   = (Returned tt,
      {| Map.items :=
           Map.fill ∅ ([("b"%string, pickle.VInt 2)] ++ []
                       ++ [("c"%string, pickle.VStr "None")]);
         Map.__dict__ :=
           Map.fill ∅ ([("b"%string, pickle.VInt 2)] ++ []
                       ++ [("c"%string, pickle.VStr "None")]) |}))
  ∧ ("self"%string ∈ [("c"%string, pickle.VStr "None")].*1 →
     Map.update {| Map.items := ∅; Map.__dict__ := ∅ |}
       [Map.Pairs [("a"%string, pickle.VInt 1)];
        Map.Dict [("b"%string, pickle.VInt 2)]]
       [("c"%string, pickle.VStr "None")]
     = (Raised (Core TypeError), {| Map.items := ∅; Map.__dict__ := ∅ |}))
  ∧ Map.update {| Map.items := ∅; Map.__dict__ := ∅ |}
      [Map.Pairs [("a"%string, pickle.VInt 1)]] []
    = (Returned tt, {| Map.items := ∅; Map.__dict__ := ∅ |})
  ∧ ("c"%string ≠ "self"%string →
     ∃ m', Map.update {| Map.items := ∅; Map.__dict__ := ∅ |} []
             [("c"%string, pickle.VStr "None")] = (Returned tt, m')
           ∧ Map.items m' !! "c"%string = Some (pickle.VStr "None")).
Proof.
  exact (Map_update_keeps_values {| Map.items := ∅; Map.__dict__ := ∅ |}
           [Map.Pairs [("a"%string, pickle.VInt 1)];
            Map.Dict [("b"%string, pickle.VInt 2)]]
           [("c"%string, pickle.VStr "None")] [("a"%string, pickle.VInt 1)] "c").
Defined.
